(** * Spendsense: the purchase-history similarity matcher

    A shallow embedding of [check_purchase_history] (src/app.py) together
    with the parts of the Python standard library it runs:
    [difflib.SequenceMatcher], [difflib.get_close_matches] and the
    [n == 1] path of [heapq.nlargest].  A second part embeds the
    functions of src/app.py that read and write the tables of the
    database.

    Conventions of the embedding.
    - A Python [str] is a [string]; its elements are the 8-bit code
      points, on which [str.lower] is the map [lower_char] below.
    - A Python [float] that the matcher handles is either the threshold
      or a ratio [2.0 * matches / length]; both are exact rationals
      ([Q]), compared with [Qle_bool] and [Qeq_bool].  The rounding of
      binary floating point is not part of the model.
    - A [dict] is a [gmap], a [set] a [gset]; a list index is a [nat].
    - An operation that can raise returns an [outcome]; [try]/[except
      Exception] is [try_except]. *)

From Stdlib Require Import QArith Lqa Ascii String.
From stdpp Require Import base option list gmap gmultiset strings sorting.

(** ** Outcomes of a Python computation *)

Inductive exn : Type :=
  | AttributeError
  | ValueError.

(** [OutOfFuel] is not a Python outcome: it marks a loop of the model
    that was cut before the source loop would have ended.  No handler
    catches it. *)
Inductive outcome (A : Type) : Type :=
  | Ok (x : A)
  | Raise (e : exn)
  | OutOfFuel.
Arguments Ok {A} x.
Arguments Raise {A} e.
Arguments OutOfFuel {A}.

#[global] Instance outcome_ret : MRet outcome := λ A x, Ok x.
#[global] Instance outcome_bind : MBind outcome := λ A B f m,
  match m with
  | Ok x => f x
  | Raise e => Raise e
  | OutOfFuel => OutOfFuel
  end.

(** [try: body except Exception: handler] *)
Definition try_except {A} (body : outcome A) (handler : outcome A) : outcome A :=
  match body with
  | Ok x => Ok x
  | Raise _ => handler
  | OutOfFuel => OutOfFuel
  end.

(** ** Python values met in a row of the [posts] table

    [sqlite3] hands back [None], an [int] or a [str] for a cell (the
    model leaves out REAL and BLOB cells).  An [int] stands for the
    stored values that have no [lower] method. *)
Inductive pyval : Type :=
  | PNone
  | PInt (n : Z)
  | PStr (s : string).

#[global] Instance pyval_eq_dec : EqDecision pyval.
Proof. solve_decision. Defined.

(** Truth value of an object: [None], [0] and [''] are false. *)
Definition truthy (v : pyval) : bool :=
  match v with
  | PNone => false
  | PInt n => negb (n =? 0)%Z
  | PStr s => negb (String.eqb s "")
  end.

(** [x or y] *)
Definition py_or (x y : pyval) : pyval := if truthy x then x else y.

(** [str.lower] on one code point below 256: the letters [A-Z] and the
    Latin-1 capitals [U+00C0 .. U+00DE] other than the multiplication
    sign [U+00D7] move up by 32, every other code point stays. *)
Definition lower_char (c : ascii) : ascii :=
  let n := N_of_ascii c in
  if ((65 <=? n) && (n <=? 90) || (192 <=? n) && (n <=? 222) && negb (n =? 215))%N
  then ascii_of_N (n + 32)
  else c.

Fixpoint lower (s : string) : string :=
  match s with
  | EmptyString => EmptyString
  | String c s' => String (lower_char c) (lower s')
  end.

(** [v.lower()]: an attribute look-up that only a [str] answers. *)
Definition py_lower (v : pyval) : outcome string :=
  match v with
  | PStr s => Ok (lower s)
  | _ => Raise AttributeError
  end.

(** ** difflib, as in [Lib/difflib.py] of CPython 3.11 *)

Module difflib.

(** [_calculate_ratio(matches, length)] *)
Definition _calculate_ratio (matches length : nat) : Q :=
  match length with
  | O => 1
  | S _ => 2 * inject_Z (Z.of_nat matches) / inject_Z (Z.of_nat length)
  end.

(** [Match = namedtuple('Match', 'a b size')] *)
Record Match : Type := mkMatch { m_a : nat; m_b : nat; m_size : nat }.

Section SequenceMatcher.
Context `{Countable A}.

(** The attributes of a [SequenceMatcher] that the ratio methods read.
    [isjunk] is [None] and [autojunk] is [True] at both places where the
    program builds a matcher. *)
Record SequenceMatcher : Type := mkSequenceMatcher {
  self_a : list A;
  self_b : list A;
  b2j : gmap A (list nat);
  bjunk : gset A;
  bpopular : gset A
}.

(** First loop of [__chain_b]:
    [for i, elt in enumerate(b): b2j.setdefault(elt, []).append(i)]. *)
Definition chain_indices (b : list A) : gmap A (list nat) :=
  foldl (λ (m : gmap A (list nat)) '(i, elt),
           <[elt := default [] (m !! elt) ++ [i]]> m)
        ∅ (imap pair b).

(** [__chain_b] with [isjunk = None]: no junk, and when [b] has at
    least 200 elements, those occurring more than [n // 100 + 1] times
    are popular and leave [b2j]. *)
Definition chain_b (b : list A) : gmap A (list nat) * gset A * gset A :=
  let b2j := chain_indices b in
  let junk : gset A := ∅ in
  let n := length b in
  if decide (200 ≤ n) then
    let ntest := n `div` 100 + 1 in
    let popular : gset A :=
      dom (filter (λ kv : A * list nat, ntest < length kv.2) b2j) in
    (foldr delete b2j (elements popular), junk, popular)
  else (b2j, junk, ∅).

(** [s = SequenceMatcher(None, a, b)], the same state as
    [s = SequenceMatcher(); s.set_seq2(b); s.set_seq1(a)]. *)
Definition new (a b : list A) : SequenceMatcher :=
  let '(b2j, junk, popular) := chain_b b in
  mkSequenceMatcher a b b2j junk popular.

Definition isbjunk (self : SequenceMatcher) (x : A) : bool :=
  bool_decide (x ∈ bjunk self).

(** [j2len.get(j-1, 0)]; the keys of [j2len] are indices, so the key
    [-1] is never present. *)
Definition j2lenget (j2len : gmap nat nat) (j : nat) : nat :=
  match j with
  | O => 0
  | S j' => default 0 (j2len !! j')
  end.

(** Inner loop of [find_longest_match], over the indices [js] of the
    occurrences of [a[i]] in [b]; the state is [newj2len] and the best
    match so far.  [continue] goes on with the rest of [js], [break]
    leaves the loop.  [k] is at most [i - alo + 1] and [j - blo + 1], so
    the integers [i-k+1] and [j-k+1] are the naturals [i + 1 - k] and
    [j + 1 - k]. *)
Fixpoint flm_row (j2len : gmap nat nat) (i blo bhi : nat) (js : list nat)
    (newj2len : gmap nat nat) (best : Match) : gmap nat nat * Match :=
  match js with
  | [] => (newj2len, best)
  | j :: js' =>
      if decide (j < blo) then flm_row j2len i blo bhi js' newj2len best
      else if decide (bhi ≤ j) then (newj2len, best)
      else
        let k := j2lenget j2len j + 1 in
        let newj2len := <[j := k]> newj2len in
        let best :=
          if decide (m_size best < k)
          then mkMatch (i + 1 - k) (j + 1 - k) k
          else best in
        flm_row j2len i blo bhi js' newj2len best
  end.

(** Outer loop, [for i in range(alo, ahi)], over the list [todo] of the
    indices still to visit. *)
Fixpoint flm_rows (self : SequenceMatcher) (blo bhi : nat) (todo : list nat)
    (j2len : gmap nat nat) (best : Match) : Match :=
  match todo with
  | [] => best
  | i :: todo' =>
      let js :=
        match self_a self !! i with
        | Some x => default [] (b2j self !! x)
        | None => []
        end in
      let '(newj2len, best) := flm_row j2len i blo bhi js ∅ best in
      flm_rows self blo bhi todo' newj2len best
  end.

(** [a[i] == b[j]] for indices inside both sequences. *)
Definition same_elt (self : SequenceMatcher) (i j : nat) : bool :=
  match self_a self !! i, self_b self !! j with
  | Some x, Some y => bool_decide (x = y)
  | _, _ => false
  end.

Definition junk_at (self : SequenceMatcher) (j : nat) : bool :=
  match self_b self !! j with
  | Some y => isbjunk self y
  | None => false
  end.

(** [while besti > alo and bestj > blo and
           (not) isbjunk(b[bestj-1]) and a[besti-1] == b[bestj-1]]:
    the match grows to the left.  [want_junk] tells which of the two
    loops this is.  The recursion is on [besti]. *)
Fixpoint extend_left (self : SequenceMatcher) (want_junk : bool)
    (alo blo besti bestj bestsize : nat) : Match :=
  match besti with
  | O => mkMatch besti bestj bestsize
  | S i' =>
      if bool_decide (alo < besti) && bool_decide (blo < bestj)
         && Bool.eqb (junk_at self (bestj - 1)) want_junk
         && same_elt self i' (bestj - 1)
      then extend_left self want_junk alo blo i' (bestj - 1) (bestsize + 1)
      else mkMatch besti bestj bestsize
  end.

(** [while besti+bestsize < ahi and bestj+bestsize < bhi and
           (not) isbjunk(b[bestj+bestsize]) and
           a[besti+bestsize] == b[bestj+bestsize]]:
    the match grows to the right.  [room] is [ahi - (besti+bestsize)],
    so that [besti+bestsize < ahi] reads [room] is a successor. *)
Fixpoint extend_right (self : SequenceMatcher) (want_junk : bool)
    (bhi besti bestj bestsize room : nat) : Match :=
  match room with
  | O => mkMatch besti bestj bestsize
  | S room' =>
      if bool_decide (bestj + bestsize < bhi)
         && Bool.eqb (junk_at self (bestj + bestsize)) want_junk
         && same_elt self (besti + bestsize) (bestj + bestsize)
      then extend_right self want_junk bhi besti bestj (bestsize + 1) room'
      else mkMatch besti bestj bestsize
  end.

Definition extend (self : SequenceMatcher) (want_junk : bool)
    (alo ahi blo bhi : nat) (m : Match) : Match :=
  let m := extend_left self want_junk alo blo (m_a m) (m_b m) (m_size m) in
  extend_right self want_junk bhi (m_a m) (m_b m) (m_size m)
               (ahi - (m_a m + m_size m)).

(** [find_longest_match(alo, ahi, blo, bhi)] *)
Definition find_longest_match (self : SequenceMatcher)
    (alo ahi blo bhi : nat) : Match :=
  let best := flm_rows self blo bhi (seq alo (ahi - alo)) ∅
                       (mkMatch alo blo 0) in
  let best := extend self false alo ahi blo bhi best in
  extend self true alo ahi blo bhi best.

(** The loop [while queue:] of [get_matching_blocks].  The Python list
    [queue] is used as a stack; here its top is the head of the list.
    [matching_blocks] is kept in the order of the [append]s. *)
Fixpoint blocks_loop (fuel : nat) (self : SequenceMatcher)
    (queue : list (nat * nat * nat * nat)) (matching_blocks : list Match)
    : outcome (list Match) :=
  match queue with
  | [] => Ok matching_blocks
  | (alo, ahi, blo, bhi) :: queue =>
      match fuel with
      | O => OutOfFuel
      | S fuel =>
          let x := find_longest_match self alo ahi blo bhi in
          let '(i, j, k) := (m_a x, m_b x, m_size x) in
          if decide (k = 0) then blocks_loop fuel self queue matching_blocks
          else
            let queue :=
              if decide (alo < i ∧ blo < j)
              then (alo, i, blo, j) :: queue else queue in
            let queue :=
              if decide (i + k < ahi ∧ j + k < bhi)
              then (i + k, ahi, j + k, bhi) :: queue else queue in
            blocks_loop fuel self queue (matching_blocks ++ [x])
      end
  end.

(** The order of tuples, used by [matching_blocks.sort()]. *)
Definition Match_le (x y : Match) : Prop :=
  m_a x < m_a y ∨
  (m_a x = m_a y ∧ (m_b x < m_b y ∨ (m_b x = m_b y ∧ m_size x ≤ m_size y))).

#[global] Instance Match_le_dec : RelDecision Match_le.
Proof. intros x y. unfold Match_le. apply _. Defined.

(** The loop that merges adjacent blocks; the state is
    [(i1, j1, k1)] and [non_adjacent]. *)
Definition collapse_step (st : Match * list Match) (x : Match)
    : Match * list Match :=
  let '(cur, non_adjacent) := st in
  if decide (m_a cur + m_size cur = m_a x ∧ m_b cur + m_size cur = m_b x)
  then (mkMatch (m_a cur) (m_b cur) (m_size cur + m_size x), non_adjacent)
  else
    (x, if decide (m_size cur = 0) then non_adjacent
        else non_adjacent ++ [cur]).

Definition collapse (la lb : nat) (matching_blocks : list Match)
    : list Match :=
  let '(cur, non_adjacent) :=
    foldl collapse_step (mkMatch 0 0 0, []) matching_blocks in
  let non_adjacent :=
    if decide (m_size cur = 0) then non_adjacent
    else non_adjacent ++ [cur] in
  non_adjacent ++ [mkMatch la lb 0].

(** [get_matching_blocks()].  Each turn of the loop either finds no
    block or takes at least one element of [a] out of the ranges left
    to search, so [2 * len(a) + 1] turns are enough
    (see [get_matching_blocks_runs]). *)
Definition get_matching_blocks (self : SequenceMatcher)
    : outcome (list Match) :=
  let la := length (self_a self) in
  let lb := length (self_b self) in
  matching_blocks ← blocks_loop (2 * la + 1) self [(0, la, 0, lb)] [];
  mret (collapse la lb (merge_sort Match_le matching_blocks)).

(** [ratio()] *)
Definition ratio (self : SequenceMatcher) : outcome Q :=
  blocks ← get_matching_blocks self;
  let matches := sum_list (m_size <$> blocks) in
  mret (_calculate_ratio matches
          (length (self_a self) + length (self_b self))).

(** [fullbcount]: [for elt in self.b:
      fullbcount[elt] = fullbcount.get(elt, 0) + 1] *)
Definition fullbcount (self : SequenceMatcher) : gmap A Z :=
  foldl (λ (m : gmap A Z) elt, <[elt := (default 0 (m !! elt) + 1)%Z]> m)
        ∅ (self_b self).

(** The loop [for elt in self.a:] of [quick_ratio]; the state is
    [avail] and [matches]. *)
Definition quick_step (full : gmap A Z) (st : gmap A Z * nat) (elt : A)
    : gmap A Z * nat :=
  let '(avail, matches) := st in
  let numb :=
    match avail !! elt with
    | Some n => n
    | None => default 0%Z (full !! elt)
    end in
  (<[elt := (numb - 1)%Z]> avail,
   if decide (0 < numb)%Z then matches + 1 else matches).

Definition quick_matches (self : SequenceMatcher) : nat :=
  (foldl (quick_step (fullbcount self)) (∅, 0) (self_a self)).2.

(** [quick_ratio()] *)
Definition quick_ratio (self : SequenceMatcher) : Q :=
  _calculate_ratio (quick_matches self)
                   (length (self_a self) + length (self_b self)).

(** [real_quick_ratio()] *)
Definition real_quick_ratio (self : SequenceMatcher) : Q :=
  let la := length (self_a self) in
  let lb := length (self_b self) in
  _calculate_ratio (la `min` lb) (la + lb).

End SequenceMatcher.

Arguments SequenceMatcher A {_ _}.

End difflib.

(** ** heapq, as in [Lib/heapq.py] of CPython 3.11 *)

Module heapq.

(** [v > w] for two tuples [(score, x)]: the first components that
    differ (by [==]) decide. *)
Definition tuple_gt (v w : Q * string) : bool :=
  if negb (Qeq_bool v.1 w.1) then negb (Qle_bool v.1 w.1)
  else if negb (String.eqb v.2 w.2) then String.ltb w.2 v.2
  else false.

(** The loop of [max(it)]: a later item replaces the maximum only when
    it is strictly greater. *)
Fixpoint max_loop (maxval : Q * string) (it : list (Q * string))
    : Q * string :=
  match it with
  | [] => maxval
  | val :: it' => max_loop (if tuple_gt val maxval then val else maxval) it'
  end.

(** [nlargest(1, iterable)]: [max(it, default=sentinel)], and the empty
    list for the sentinel. *)
Definition nlargest_1 (iterable : list (Q * string)) : list (Q * string) :=
  match iterable with
  | [] => []
  | val :: it => [max_loop val it]
  end.

End heapq.

Module difflib_close.
Import difflib.

(** The sequence of the elements of a [str]. *)
Definition chars (s : string) : list ascii := list_ascii_of_string s.

(** The loop [for x in possibilities:] of [get_close_matches]. *)
Fixpoint close_loop (word : string) (cutoff : Q) (possibilities : list string)
    (result : list (Q * string)) : outcome (list (Q * string)) :=
  match possibilities with
  | [] => Ok result
  | x :: possibilities' =>
      let s := new (chars x) (chars word) in
      if Qle_bool cutoff (real_quick_ratio s) && Qle_bool cutoff (quick_ratio s)
      then
        r ← ratio s;
        close_loop word cutoff possibilities'
          (if Qle_bool cutoff r then result ++ [(r, x)] else result)
      else close_loop word cutoff possibilities' result
  end.

(** [get_close_matches(word, possibilities, n=1, cutoff=cutoff)]: the
    test [n > 0] passes, the test [0.0 <= cutoff <= 1.0] is the first
    line below. *)
Definition get_close_matches (word : string) (possibilities : list string)
    (cutoff : Q) : outcome (list string) :=
  if negb (Qle_bool 0 cutoff && Qle_bool cutoff 1) then Raise ValueError
  else
    result ← close_loop word cutoff possibilities [];
    mret (snd <$> heapq.nlargest_1 result).

End difflib_close.

(** ** The matcher of src/app.py *)

Import difflib difflib_close.

(** The three [return] statements of [check_purchase_history]:
    - [NoHistory]: "No past items found — this might be a new need."
    - [Match orig]: "You already posted something similar earlier:
      '{orig}'. Consider skipping."
    - [NoMatch]: "No close match in your past posts — you might need
      this." *)
Inductive verdict : Type :=
  | NoHistory
  | Match (orig : pyval)
  | NoMatch.

(** [next((p for p in past_items if p.lower() == matched), matched)] *)
Fixpoint next_orig (past_items : list pyval) (matched : string)
    : outcome pyval :=
  match past_items with
  | [] => Ok (PStr matched)
  | p :: past_items' =>
      l ← py_lower p;
      if String.eqb l matched then Ok p else next_orig past_items' matched
  end.

(** The body of the first [try]; [Some v] is [return v], [None] is the
    end of the block. *)
Definition quick_match (past_items : list pyval) (item_name : string)
    (threshold : Q) : outcome (option verdict) :=
  names ← mapM py_lower past_items;
  matches ← get_close_matches (lower item_name) names threshold;
  match matches with
  | matched :: _ =>
      orig ← next_orig past_items matched;
      mret (Some (Match orig))
  | [] => mret None
  end.

(** The body of the [try] inside the fallback loop. *)
Definition fallback_body (past : pyval) (item_name : string) (threshold : Q)
    : outcome (option verdict) :=
  a ← py_lower past;
  ratio ← ratio (new (chars a) (chars (lower item_name)));
  if Qle_bool threshold ratio then mret (Some (Match past)) else mret None.

(** [for past in past_items:], where [except Exception: continue] goes
    on with the next entry. *)
Fixpoint fallback (past_items : list pyval) (item_name : string)
    (threshold : Q) : outcome verdict :=
  match past_items with
  | [] => Ok NoMatch
  | past :: past_items' =>
      r ← try_except (fallback_body past item_name threshold) (Ok None);
      match r with
      | Some v => Ok v
      | None => fallback past_items' item_name threshold
      end
  end.

(** [check_purchase_history(user_id, item_name, threshold)], from the
    rows that the query [SELECT item_name FROM posts WHERE user_id=?]
    gave for [user_id]; [rows] is the list of their first columns, empty
    when the query raised.  Opening and closing the connection is not
    part of the model. *)
Definition check_purchase_history (rows : list pyval) (item_name : string)
    (threshold : Q) : outcome verdict :=
  let past_items := (λ r0, py_or r0 (PStr "")) <$> rows in
  match past_items with
  | [] => Ok NoHistory
  | _ :: _ =>
      r ← try_except (quick_match past_items item_name threshold) (Ok None);
      match r with
      | Some v => Ok v
      | None => fallback past_items item_name threshold
      end
  end.

(** ** The rest of src/app.py: badges, the tables of [spendsense.db] and
    the functions that read and write them

    A table is the list of its rows in the order of their insertion.
    [now_utc_iso()] and [uuid.uuid4()] are arguments of the functions
    that call them, one argument for each call.  A price or a total is
    a finite float, written as the rational that it is.  The sum of two
    floats is rounded to the nearest float: it is the argument
    [float_add] of [decide_post], the one function that adds.  The files
    of the images and the mails are outside the model. *)

(** [BADGES] *)
Definition BADGES : list (Q * string) :=
  [(1000, "Impulse Rookie"); (5000, "Mindful Saver");
   (20000, "Budget Pro"); (50000, "Frugal Master")]%Q.

(** The loop of [badge_for] over a table of badges:
    [for thr, name in BADGES: if total_saved >= thr: earned = name]. *)
Definition badge_loop (total_saved : Q) (badges : list (Q * string))
    (earned : option string) : option string :=
  foldl (λ earned '(thr, name),
           if Qle_bool thr total_saved then Some name else earned)
        earned badges.

(** [badge_for(total_saved)] *)
Definition badge_for (total_saved : Q) : option string :=
  badge_loop total_saved BADGES None.

(** [str.isspace] on one code point below 256. *)
Definition is_space (c : ascii) : bool :=
  let n := N_of_ascii c in
  ((9 <=? n) && (n <=? 13) || (28 <=? n) && (n <=? 32)
   || (n =? 133) || (n =? 160))%N.

Fixpoint lstrip (s : string) : string :=
  match s with
  | EmptyString => EmptyString
  | String c s' => if is_space c then lstrip s' else s
  end.

Fixpoint rstrip (s : string) : string :=
  match s with
  | EmptyString => EmptyString
  | String c s' =>
      match rstrip s' with
      | EmptyString => if is_space c then EmptyString else String c EmptyString
      | r => String c r
      end
  end.

(** [s.strip()] *)
Definition strip (s : string) : string := rstrip (lstrip s).

(** *** Rows of the tables ([init_db]) *)

Record users_row : Type := mk_user {
  usr_id : string; usr_email : string; usr_name : string;
  usr_password_hash : string; usr_created_at : string }.

Record groups_row : Type := mk_group {
  grp_id : string; grp_owner_id : string; grp_name : string;
  grp_invite_code : string; grp_created_at : string }.

Record memberships_row : Type := mk_membership {
  mem_user_id : string; mem_group_id : string; mem_joined_at : string }.

Record posts_row : Type := mk_post {
  post_id : string; post_group_id : string; post_user_id : string;
  post_item_name : string; post_item_link : string; post_price : Q;
  post_reason : string; post_image_path : option string;
  post_deadline_utc : string; post_status : string;
  post_decision : option string; post_decided_at : option string;
  post_created_at : string }.

Record votes_row : Type := mk_vote {
  vote_id : string; vote_post_id : string; vote_user_id : string;
  vote_vote : string; vote_comment : string; vote_created_at : string }.

Record notifications_row : Type := mk_notification {
  ntf_id : string; ntf_group_id : string; ntf_post_id : string;
  ntf_type : string; ntf_created_at : string }.

Record savings_row : Type := mk_saving {
  sav_user_id : string; sav_total_saved : Q; sav_updated_at : string }.

Record database : Type := mk_database {
  users : list users_row;
  groups : list groups_row;
  memberships : list memberships_row;
  posts : list posts_row;
  votes : list votes_row;
  notifications : list notifications_row;
  savings : list savings_row }.

Definition with_users (db : database) (t : list users_row) : database :=
  mk_database t (groups db) (memberships db) (posts db) (votes db)
              (notifications db) (savings db).
Definition with_memberships (db : database) (t : list memberships_row)
    : database :=
  mk_database (users db) (groups db) t (posts db) (votes db)
              (notifications db) (savings db).
Definition with_posts (db : database) (t : list posts_row) : database :=
  mk_database (users db) (groups db) (memberships db) t (votes db)
              (notifications db) (savings db).
Definition with_votes (db : database) (t : list votes_row) : database :=
  mk_database (users db) (groups db) (memberships db) (posts db) t
              (notifications db) (savings db).
Definition with_notifications (db : database) (t : list notifications_row)
    : database :=
  mk_database (users db) (groups db) (memberships db) (posts db) (votes db)
              t (savings db).
Definition with_savings (db : database) (t : list savings_row) : database :=
  mk_database (users db) (groups db) (memberships db) (posts db) (votes db)
              (notifications db) t.
Definition with_groups (db : database) (t : list groups_row) : database :=
  mk_database (users db) t (memberships db) (posts db) (votes db)
              (notifications db) (savings db).

(** *** Statements *)

(** The outcome of a plain [INSERT]: the new table, or
    [sqlite3.IntegrityError] when the row breaks a PRIMARY KEY or UNIQUE
    constraint with a row of the table. *)
Inductive inserted (R : Type) : Type :=
  | Inserted (t : list R)
  | IntegrityError.
Arguments Inserted {R} t.
Arguments IntegrityError {R}.

Definition sql_insert {R} (conflict : R → R → bool) (row : R) (t : list R)
    : inserted R :=
  if existsb (conflict row) t then IntegrityError else Inserted (t ++ [row]).

(** [INSERT OR IGNORE] *)
Definition sql_insert_or_ignore {R} (conflict : R → R → bool) (row : R)
    (t : list R) : list R :=
  if existsb (conflict row) t then t else t ++ [row].

(** [INSERT OR REPLACE]: the rows in conflict go, the new row comes
    last. *)
Definition sql_insert_or_replace {R} (conflict : R → R → bool) (row : R)
    (t : list R) : list R :=
  filter (λ r, conflict row r = false) t ++ [row].

(** The constraints of the tables. *)
Definition users_conflict (r r' : users_row) : bool :=
  bool_decide (usr_id r = usr_id r') || bool_decide (usr_email r = usr_email r').
Definition groups_conflict (r r' : groups_row) : bool :=
  bool_decide (grp_id r = grp_id r')
  || bool_decide (grp_invite_code r = grp_invite_code r').
Definition memberships_conflict (r r' : memberships_row) : bool :=
  bool_decide (mem_user_id r = mem_user_id r')
  && bool_decide (mem_group_id r = mem_group_id r').
Definition posts_conflict (r r' : posts_row) : bool :=
  bool_decide (post_id r = post_id r').
Definition votes_conflict (r r' : votes_row) : bool :=
  bool_decide (vote_id r = vote_id r')
  || bool_decide (vote_post_id r = vote_post_id r')
     && bool_decide (vote_user_id r = vote_user_id r').
Definition notifications_conflict (r r' : notifications_row) : bool :=
  bool_decide (ntf_id r = ntf_id r').
Definition savings_conflict (r r' : savings_row) : bool :=
  bool_decide (sav_user_id r = sav_user_id r').

(** *** Savings *)

(** [ensure_savings_row(user_id)] *)
Definition ensure_savings_row (db : database) (user_id now : string)
    : database :=
  with_savings db
    (sql_insert_or_ignore savings_conflict (mk_saving user_id 0%Q now) (savings db)).

(** [backfill_savings_rows()]: [INSERT OR IGNORE ... SELECT id, 0, ? FROM
    users], one row for each user in turn. *)
Definition backfill_savings_rows (db : database) (now : string) : database :=
  with_savings db
    (foldl (λ t u,
              sql_insert_or_ignore savings_conflict
                (mk_saving (usr_id u) 0%Q now) t)
           (savings db) (users db)).

(** [get_savings(user_id)] *)
Definition get_savings (db : database) (user_id : string) : Q :=
  match head (filter (λ s, sav_user_id s = user_id) (savings db)) with
  | Some r => sav_total_saved r
  | None => 0%Q
  end.

Section totals.
(** [float_add x y] stands for [x + y] on two floats, as Python rounds
    it: [1e16 + 1.0] is [1e16]. *)
Variable float_add : Q → Q → Q.

(** [decide_post(post_id, decision)]; [now] is the time of the UPDATE,
    [now'] that of the row of savings. *)
Definition decide_post (db : database) (pid decision now now' : string)
    : database :=
  let db :=
    with_posts db
      ((λ p, if decide (post_id p = pid)
             then mk_post (post_id p) (post_group_id p) (post_user_id p)
                    (post_item_name p) (post_item_link p) (post_price p)
                    (post_reason p) (post_image_path p) (post_deadline_utc p)
                    "decided" (Some decision) (Some now) (post_created_at p)
             else p) <$> posts db) in
  match head (filter (λ p, post_id p = pid) (posts db)) with
  | Some r =>
      if decide (decision = "skipped"%string) then
        let owner_id := post_user_id r in
        let price := post_price r in
        let s := head (filter (λ s, sav_user_id s = owner_id) (savings db)) in
        let current :=
          match s with Some s => sav_total_saved s | None => 0%Q end in
        let new_total := float_add current price in
        with_savings db
          (sql_insert_or_replace savings_conflict
             (mk_saving owner_id new_total now') (savings db))
      else db
  | None => db
  end.

End totals.

(** *** Posts *)

(** [create_post(...)]: [pid] and [nid] are the two fresh identifiers,
    [image_path] is what the block that stores the image leaves ([None]
    without an image or after a failure), [deadline_utc] the formatted
    deadline.  An [IntegrityError] leaves the function, and nothing is
    committed. *)
Definition create_post (db : database) (pid nid group_id user_id : string)
    (item_name item_link : string) (price : Q) (reason : string)
    (image_path : option string) (deadline_utc now now' : string)
    : option (string * database) :=
  match sql_insert posts_conflict
          (mk_post pid group_id user_id (strip item_name) (strip item_link)
                   price (strip reason) image_path deadline_utc "pending"
                   None None now) (posts db) with
  | IntegrityError => None
  | Inserted ps =>
      match sql_insert notifications_conflict
              (mk_notification nid group_id pid "new_post" now')
              (notifications db) with
      | IntegrityError => None
      | Inserted ns => Some (pid, with_notifications (with_posts db ps) ns)
      end
  end.

(** [get_post(post_id)] *)
Definition get_post (db : database) (pid : string) : option posts_row :=
  head (filter (λ p, post_id p = pid) (posts db)).

(** [delete_post(post_id, user_id)] *)
Definition delete_post (db : database) (pid user_id : string)
    : bool * database :=
  match head (filter (λ p, post_id p = pid) (posts db)) with
  | None => (false, db)
  | Some r =>
      if decide (post_user_id r ≠ user_id) then (false, db)
      else if decide (post_status r ≠ "pending"%string) then (false, db)
      else
        let db := with_votes db
                    (filter (λ v, vote_post_id v ≠ pid) (votes db)) in
        let db := with_notifications db
                    (filter (λ n, ntf_post_id n ≠ pid) (notifications db)) in
        let db := with_posts db (filter (λ p, post_id p ≠ pid) (posts db)) in
        (true, db)
  end.

(** *** Votes *)

(** [cast_vote(post_id, user_id, vote, comment)]; [vid] is the fresh
    identifier, [now] the time of the INSERT and [now'] that of the
    UPDATE. *)
Definition cast_vote (db : database) (vid pid user_id vote comment : string)
    (now now' : string) : database :=
  match sql_insert votes_conflict
          (mk_vote vid pid user_id vote (strip comment) now) (votes db) with
  | Inserted vs => with_votes db vs
  | IntegrityError =>
      with_votes db
        ((λ v, if decide (vote_post_id v = pid ∧ vote_user_id v = user_id)
               then mk_vote (vote_id v) (vote_post_id v) (vote_user_id v)
                            vote (strip comment) now'
               else v) <$> votes db)
  end.

(** A row of [post_votes]: the columns of the vote and the name of the
    voter. *)
Definition vote_view : Type := votes_row * string.

(** [post_votes(post_id)]: the votes on the post joined with their
    voters, the latest first.  (SQLite fixes no order among rows of equal
    [created_at]; the model keeps the order of a merge sort.) *)
Definition later (x y : vote_view) : Prop :=
  String.leb (vote_created_at y.1) (vote_created_at x.1) = true.

#[global] Instance later_dec (x y : vote_view) : Decision (later x y) :=
  bool_eq_dec _ _.

Definition post_votes (db : database) (pid : string) : list vote_view :=
  merge_sort later
    (v ← filter (λ v, vote_post_id v = pid) (votes db);
     u ← filter (λ u, usr_id u = vote_user_id v) (users db);
     [(v, usr_name u)]).

(** The loop of [vote_counts]:
    [if v["vote"] in counts: counts[v["vote"]] += 1]. *)
Definition count_loop (votes : list vote_view) (counts : gmap string nat)
    : gmap string nat :=
  foldl (λ (counts : gmap string nat) (v : vote_view),
           match counts !! vote_vote v.1 with
           | Some c => <[vote_vote v.1 := c + 1]> counts
           | None => counts
           end)
        counts votes.

(** [vote_counts(post_id)] *)
Definition vote_counts (db : database) (pid : string)
    : gmap string nat * list vote_view :=
  let votes := post_votes db pid in
  (count_loop votes
     (<["buy"%string := 0]> (<["dont_buy"%string := 0]>
        (<["neutral"%string := 0]> ∅))),
   votes).

(** *** Accounts; [sha256_hex s] stands for
    [hashlib.sha256(s.encode()).hexdigest()] *)

Section accounts.
Variable sha256_hex : string → string.

(** [hash_password(pw)] *)
Definition hash_password (pw : string) : string :=
  sha256_hex (pw ++ "spendsense_salt_v1").

(** [create_user(email, name, password)]; [uid] is the fresh identifier.
    The result is [None] after an [IntegrityError]. *)
Definition create_user (db : database) (uid email name password : string)
    (now now' : string) : option string * database :=
  match sql_insert users_conflict
          (mk_user uid (strip (lower email)) (strip name)
                   (hash_password password) now) (users db) with
  | IntegrityError => (None, db)
  | Inserted us =>
      let db := with_users db us in
      (Some uid,
       with_savings db
         (sql_insert_or_ignore savings_conflict (mk_saving uid 0%Q now')
                           (savings db)))
  end.

(** [auth_user(email, password)] *)
Definition auth_user (db : database) (email password : string)
    : option users_row :=
  match head (filter (λ u, usr_email u = strip (lower email)) (users db)) with
  | None => None
  | Some row =>
      if decide (usr_password_hash row = hash_password password)
      then Some row else None
  end.

End accounts.

(** [get_user(uid)] *)
Definition get_user (db : database) (uid : string) : option users_row :=
  head (filter (λ u, usr_id u = uid) (users db)).

(** *** Groups *)

(** [create_group(owner_id, name, short_code)]; [gid] is the fresh
    identifier and [invite] the invite code that the clock or [uuid4]
    gives.  An [IntegrityError] leaves the function, and nothing is
    committed. *)
Definition create_group (db : database) (gid owner_id name invite : string)
    (now now' : string) : option (string * database) :=
  match sql_insert groups_conflict
          (mk_group gid owner_id (strip name) invite now) (groups db) with
  | IntegrityError => None
  | Inserted gs =>
      let db := with_groups db gs in
      Some (gid,
            with_memberships db
              (sql_insert_or_ignore memberships_conflict
                 (mk_membership owner_id gid now') (memberships db)))
  end.

(** [get_group(group_id)] *)
Definition get_group (db : database) (gid : string) : option groups_row :=
  head (filter (λ g, grp_id g = gid) (groups db)).

Section invite_codes.
(** [upper s] stands for [s.upper()]. *)
Variable upper : string → string.

(** [join_group(user_id, invite_code)] *)
Definition join_group (db : database) (user_id invite_code now : string)
    : (option string * option string) * database :=
  match head (filter (λ g, grp_invite_code g = upper (strip invite_code))
                     (groups db)) with
  | None => ((None, Some "Invalid invite code"%string), db)
  | Some g =>
      match sql_insert memberships_conflict
              (mk_membership user_id (grp_id g) now) (memberships db) with
      | Inserted ms => ((Some (grp_id g), None), with_memberships db ms)
      | IntegrityError => ((Some (grp_id g), None), db)
      end
  end.

End invite_codes.

(** [delete_group(group_id, user_id)] *)
Definition delete_group (db : database) (gid user_id : string)
    : bool * database :=
  match head (filter (λ g, grp_id g = gid) (groups db)) with
  | None => (false, db)
  | Some g =>
      if decide (grp_owner_id g ≠ user_id) then (false, db)
      else
        let ps := filter (λ p, post_group_id p = gid) (posts db) in
        let db :=
          foldl (λ db p,
                   let db := with_votes db
                     (filter (λ v, vote_post_id v ≠ post_id p) (votes db)) in
                   with_notifications db
                     (filter (λ n, ntf_post_id n ≠ post_id p)
                             (notifications db)))
                db ps in
        let db := with_posts db
                    (filter (λ p, post_group_id p ≠ gid) (posts db)) in
        let db := with_memberships db
                    (filter (λ m, mem_group_id m ≠ gid) (memberships db)) in
        let db := with_groups db (filter (λ g, grp_id g ≠ gid) (groups db)) in
        (true, db)
  end.

(** [clear_user_data(user_id)] *)
Definition clear_user_data (db : database) (user_id : string) : database :=
  let groups_owned :=
    grp_id <$> filter (λ g, grp_owner_id g = user_id) (groups db) in
  let db := foldl (λ db gid, (delete_group db gid user_id).2) db groups_owned in
  let db := with_votes db (filter (λ v, vote_user_id v ≠ user_id) (votes db)) in
  let db := with_posts db (filter (λ p, post_user_id p ≠ user_id) (posts db)) in
  let db := with_memberships db
              (filter (λ m, mem_user_id m ≠ user_id) (memberships db)) in
  let db := with_savings db
              (filter (λ s, sav_user_id s ≠ user_id) (savings db)) in
  with_users db (filter (λ u, usr_id u ≠ user_id) (users db)).

(** *** The matcher on the table of posts *)

(** The rows of [SELECT item_name FROM posts WHERE user_id=?]. *)
Definition item_names (db : database) (user_id : string) : list pyval :=
  (λ p, PStr (post_item_name p))
    <$> filter (λ p, post_user_id p = user_id) (posts db).

(** [check_purchase_history(user_id, item_name, threshold)] with its
    query. *)
Definition check_purchase_history_of (db : database)
    (user_id item_name : string) (threshold : Q) : outcome verdict :=
  check_purchase_history (item_names db user_id) item_name threshold.


(** ** Notions used to state what the code computes *)

Section Notions.
Context `{Countable A}.

(** [l[lo:hi]] *)
Definition slice (l : list A) (lo hi : nat) : list A :=
  take (hi - lo) (drop lo l).

(** Length of a longest common subsequence of two sequences. *)
Fixpoint lcs (xs ys : list A) : nat :=
  match xs with
  | [] => 0
  | x :: xs' =>
      (fix lcs_row (ys : list A) : nat :=
         match ys with
         | [] => 0
         | y :: ys' =>
             if decide (x = y) then S (lcs xs' ys')
             else lcs xs' ys `max` lcs_row ys'
         end) ys
  end.

(** What [b2j] holds for a key [x] after [__chain_b] has read [b]:
    the places of [x] in [b], in increasing order; elements that are
    no key do not occur in [b]. *)
Definition chained (b : list A) (m : gmap A (list nat)) : Prop :=
  ∀ x : A,
    match m !! x with
    | Some js => (∀ j, j ∈ js ↔ b !! j = Some x) ∧ StronglySorted lt js
    | None => ∀ j, b !! j ≠ Some x
    end.

(** A block [m] lies inside the window [a[alo:ahi]], [b[blo:bhi]] and
    covers equal elements. *)
Definition block_ok (a b : list A) (alo ahi blo bhi : nat) (m : difflib.Match)
    : Prop :=
  alo ≤ m_a m ∧ m_a m + m_size m ≤ ahi ∧
  blo ≤ m_b m ∧ m_b m + m_size m ≤ bhi ∧
  ∀ t, t < m_size m → ∃ x, a !! (m_a m + t) = Some x ∧ b !! (m_b m + t) = Some x.

(** What [j2len] holds once the rows before [e] are done: under [j],
    the length [k] of a run of equal elements that ends just before
    [a[e]] and at [b[j]], inside the window. *)
Definition rows_to (a b : list A) (alo blo e : nat) (j2len : gmap nat nat)
    : Prop :=
  ∀ j k, j2len !! j = Some k →
    k ≤ e ∧ k ≤ j + 1 ∧
    block_ok a b alo e blo (j + 1) (mkMatch (e - k) (j + 1 - k) k).

(** [b2j] lists places of its key only. *)
Definition b2j_sound (self : SequenceMatcher A) : Prop :=
  ∀ (x : A) (js : list nat) (j : nat),
    b2j self !! x = Some js → j ∈ js → self_b self !! j = Some x.





(** How many more [x] the loop of [quick_ratio] may still count: the
    entry of [avail], or of [fullbcount] while [avail] has none. *)
Definition available (full avail : gmap A Z) (x : A) : Z :=
  match avail !! x with
  | Some n => n
  | None => default 0%Z (full !! x)
  end.

(** A window of the search, as kept in [queue]. *)
Definition window_ok (la lb : nat) (w : nat * nat * nat * nat) : Prop :=
  let '(alo, ahi, blo, bhi) := w in alo ≤ ahi ≤ la ∧ blo ≤ bhi ≤ lb.

Definition window_lcs (a b : list A) (w : nat * nat * nat * nat) : nat :=
  let '(alo, ahi, blo, bhi) := w in lcs (slice a alo ahi) (slice b blo bhi).

Definition window_cost (w : nat * nat * nat * nat) : nat :=
  let '(alo, ahi, blo, bhi) := w in 2 * (ahi - alo) + 1.

End Notions.

(** The ratio of two strings, as a relation: [has_ratio x w r] when
    [SequenceMatcher(None, x, w).ratio()] returns [r]. *)
Definition has_ratio (x w : string) (r : Q) : Prop :=
  ratio (new (chars x) (chars w)) = Ok r.

(** [past_items = [(r[0] or "") for r in rows]] *)
Definition past_items_of (rows : list pyval) : list pyval :=
  (λ r0, py_or r0 (PStr "")) <$> rows.

(** An entry of the history clears the threshold: it is a [str] and the
    ratio of its lowered text to the lowered candidate is at least the
    threshold. *)
Definition qualifies (item_name : string) (threshold : Q) (p : pyval) : Prop :=
  ∃ s r, p = PStr s ∧ has_ratio (lower s) (lower item_name) r ∧
         (threshold <= r)%Q.

(** [v >= w] for two tuples [(score, x)]. *)
Definition tuple_ge (v w : Q * string) : Prop :=
  (w.1 < v.1)%Q ∨ ((v.1 == w.1)%Q ∧ String.compare w.2 v.2 ≠ Gt).

(** [x] is the first element of [l] with property [P]. *)
Definition first_where {X} (P : X → Prop) (l : list X) (x : X) : Prop :=
  ∃ l1 l2, l = l1 ++ x :: l2 ∧ P x ∧ ∀ y, y ∈ l1 → ¬ P y.

(** The entry [o] that the first stage reports for a history [ss] of
    strings: its ratio [r] is at least the threshold; no entry that
    clears the threshold has a greater ratio, nor the same ratio and a
    greater lowered text; and [o] is the first entry with its lowered
    text. *)
Definition stage1_choice (item_name : string) (threshold : Q)
    (ss : list string) (o : string) : Prop :=
  first_where (λ s, lower s = lower o) ss o ∧
  ∃ r, has_ratio (lower o) (lower item_name) r ∧ (threshold <= r)%Q ∧
    ∀ s r', s ∈ ss → has_ratio (lower s) (lower item_name) r' →
            (threshold <= r')%Q → tuple_ge (r, lower o) (r', lower s).

(** The ratio as a number ([0] stands for a ratio that was not
    computed, which [has_ratio_ex] excludes). *)
Definition ratio_of (x w : string) : Q :=
  match ratio (new (chars x) (chars w)) with
  | Ok r => r
  | _ => 0
  end.

(** The first stage in the words of the specification: keep the entries
    whose ratio to the candidate (both lowered) is at least the
    threshold and pick the one with the highest ratio, the first in the
    order of the history among equal ratios; the result is the entry in
    its original case. *)
Definition spec_stage1_step (candidate : string) (threshold : Q)
    (best : option (Q * string)) (entry : string) : option (Q * string) :=
  let r := ratio_of (lower entry) (lower candidate) in
  if Qle_bool threshold r then
    match best with
    | None => Some (r, entry)
    | Some (rb, _) => if Qle_bool r rb then best else Some (r, entry)
    end
  else best.

Definition spec_stage1 (history : list string) (candidate : string)
    (threshold : Q) : option string :=
  snd <$> foldl (spec_stage1_step candidate threshold) None history.

(** ** Notions for the tables *)

(** The row of a post after the UPDATE of [decide_post]. *)
Definition decided (decision now : string) (p : posts_row) : posts_row :=
  mk_post (post_id p) (post_group_id p) (post_user_id p)
    (post_item_name p) (post_item_link p) (post_price p)
    (post_reason p) (post_image_path p) (post_deadline_utc p)
    "decided" (Some decision) (Some now) (post_created_at p).

(** The constraints of the table of votes: no two rows with the same
    identifier, and no two votes of one user on one post. *)
Definition votes_unique (t : list votes_row) : Prop :=
  NoDup (vote_id <$> t) ∧
  NoDup ((λ v, (vote_post_id v, vote_user_id v)) <$> t).

(** The row of a vote after the UPDATE of [cast_vote]. *)
Definition revoted (vote comment now : string) (v : votes_row) : votes_row :=
  mk_vote (vote_id v) (vote_post_id v) (vote_user_id v) vote (strip comment)
    now.

(** A small database for the examples: two users in one group, a pending
    post of the first with a vote of the second, and a total of 5 saved
    by the first.  The hashes are those of the identity in the place of
    SHA-256. *)
Definition example_user : users_row :=
  mk_user "u1" "ann@example.org" "Ann" "pw1spendsense_salt_v1"
    "2026-01-01T09:00:00".

Definition example_group : groups_row :=
  mk_group "g1" "u1" "Flat" "123456" "2026-01-01T09:30:00".

Definition example_post : posts_row :=
  mk_post "p1" "g1" "u1" "Desk Lamp" "" 10 "" None "2026-01-02T10:00:00"
    "pending" None None "2026-01-01T10:00:00".

Definition example_vote : votes_row :=
  mk_vote "v1" "p1" "u2" "buy" "" "2026-01-01T11:00:00".

Definition example_db : database :=
  mk_database
    [example_user;
     mk_user "u2" "bob@example.org" "Bob" "pw2spendsense_salt_v1"
       "2026-01-01T09:10:00"]
    [example_group]
    [mk_membership "u1" "g1" "2026-01-01T09:30:00";
     mk_membership "u2" "g1" "2026-01-01T09:40:00"]
    [example_post]
    [example_vote]
    [mk_notification "n1" "g1" "p1" "new_post" "2026-01-01T10:00:00"]
    [mk_saving "u1" 5 "2026-01-01T09:00:00"].

(** * Properties *)

(** ** [_calculate_ratio] *)

Section calculate_ratio.
Local Open Scope Q_scope.

Lemma inject_nat_pos (n : nat) : (0 < n)%nat → 0 < inject_Z (Z.of_nat n).
Proof.
  intros Hn. change 0 with (inject_Z 0). rewrite <- Zlt_Qlt. lia.
Qed.

Lemma calculate_ratio_mono (m1 m2 len : nat) :
  (m1 ≤ m2)%nat → _calculate_ratio m1 len <= _calculate_ratio m2 len.
Proof.
  intros Hm. destruct len as [|len]; simpl; [apply Qle_refl|].
  apply Qmult_le_compat_r.
  - apply Qmult_le_l; [reflexivity|]. rewrite <- Zle_Qle. lia.
  - apply Qinv_le_0_compat, Qlt_le_weak, (inject_nat_pos (S len)). lia.
Qed.

Lemma calculate_ratio_nonneg (m len : nat) : 0 <= _calculate_ratio m len.
Proof.
  destruct len as [|len]; simpl; [discriminate|].
  apply Qmult_le_0_compat.
  - apply Qmult_le_0_compat; [discriminate|].
    change 0 with (inject_Z 0). rewrite <- Zle_Qle. lia.
  - apply Qinv_le_0_compat, Qlt_le_weak, (inject_nat_pos (S len)). lia.
Qed.

Lemma calculate_ratio_le_1 (m len : nat) :
  (2 * m ≤ len)%nat → _calculate_ratio m len <= 1.
Proof.
  intros Hm. destruct len as [|len]; simpl; [apply Qle_refl|].
  apply Qle_shift_div_r; [apply (inject_nat_pos (S len)); lia|].
  rewrite Qmult_1_l. change 2 with (inject_Z 2).
  rewrite <- inject_Z_mult, <- Zle_Qle. lia.
Qed.



Lemma calculate_ratio_none (len : nat) :
  (0 < len)%nat → _calculate_ratio 0 len == 0.
Proof.
  intros Hl. destruct len as [|len]; [lia|]. simpl.
  unfold Qdiv. rewrite Qmult_0_r, Qmult_0_l. reflexivity.
Qed.

End calculate_ratio.

(** ** Longest common subsequences *)

Section lcs.
Context `{Countable A}.
Implicit Types xs ys : list A.

Lemma lcs_nil_r xs : lcs xs [] = 0.
Proof. by destruct xs. Qed.

Lemma lcs_cons x y xs ys :
  lcs (x :: xs) (y :: ys) =
    if decide (x = y) then S (lcs xs ys)
    else lcs xs (y :: ys) `max` lcs (x :: xs) ys.
Proof. reflexivity. Qed.

(** Adding one element to either side changes the length by at most
    one, and never lowers it. *)
Lemma lcs_step n xs ys x :
  length xs + length ys ≤ n →
  lcs (x :: xs) ys ≤ S (lcs xs ys) ∧ lcs xs (x :: ys) ≤ S (lcs xs ys) ∧
  lcs xs ys ≤ lcs (x :: xs) ys ∧ lcs xs ys ≤ lcs xs (x :: ys).
Proof.
  revert xs ys x. induction n as [|n IH]; intros xs ys x Hn.
  { destruct xs, ys; simpl in *; lia. }
  assert (Ha : ∀ z, lcs (z :: xs) ys ≤ S (lcs xs ys)).
  { intros z. destruct ys as [|y ys']; [rewrite !lcs_nil_r; lia|].
    rewrite lcs_cons. simpl in Hn.
    destruct (IH xs ys' y ltac:(lia)) as (_ & _ & _ & Hd).
    destruct (IH xs ys' z ltac:(lia)) as (Ha' & _).
    case_decide; lia. }
  assert (Hb : ∀ z, lcs xs (z :: ys) ≤ S (lcs xs ys)).
  { intros z. destruct xs as [|x' xs']; [simpl; lia|].
    rewrite lcs_cons. simpl in Hn.
    destruct (IH xs' ys x' ltac:(lia)) as (_ & _ & Hc & _).
    destruct (IH xs' ys z ltac:(lia)) as (_ & Hb' & _).
    case_decide; lia. }
  repeat split; [apply Ha|apply Hb| |].
  - destruct ys as [|y ys']; [rewrite !lcs_nil_r; lia|].
    rewrite lcs_cons. case_decide; [|lia].
    simpl in Hn. destruct (IH xs ys' y ltac:(lia)) as (_ & Hb' & _). lia.
  - destruct xs as [|x' xs']; [simpl; lia|].
    rewrite lcs_cons. case_decide; [|lia].
    simpl in Hn. destruct (IH xs' ys x' ltac:(lia)) as (Ha' & _). lia.
Qed.

Lemma lcs_cons_l_le x xs ys : lcs xs ys ≤ lcs (x :: xs) ys.
Proof. by apply (lcs_step (length xs + length ys)). Qed.

Lemma lcs_cons_r_le y xs ys : lcs xs ys ≤ lcs xs (y :: ys).
Proof. by apply (lcs_step (length xs + length ys)). Qed.

Lemma lcs_le_length_l xs ys : lcs xs ys ≤ length xs.
Proof.
  revert ys. induction xs as [|x xs IH]; intros ys; [done|].
  pose proof (lcs_step (length xs + length ys) xs ys x ltac:(done)) as [Ha _].
  specialize (IH ys). simpl length. lia.
Qed.

Lemma lcs_le_length_r xs ys : lcs xs ys ≤ length ys.
Proof.
  induction ys as [|y ys IH]; [rewrite lcs_nil_r; lia|].
  pose proof (lcs_step (length xs + length ys) xs ys y ltac:(done))
    as (_ & Hb & _).
  simpl length. lia.
Qed.

Lemma lcs_app_l_le xs1 xs2 ys : lcs xs2 ys ≤ lcs (xs1 ++ xs2) ys.
Proof.
  induction xs1 as [|x xs1 IH]; [done|]. simpl app.
  etrans; [apply IH|apply lcs_cons_l_le].
Qed.

Lemma lcs_app_r_le xs ys1 ys2 : lcs xs ys2 ≤ lcs xs (ys1 ++ ys2).
Proof.
  induction ys1 as [|y ys1 IH]; [done|]. simpl app.
  etrans; [apply IH|apply lcs_cons_r_le].
Qed.

(** Common subsequences of two pairs of pieces join into one of the
    joined sequences. *)
Lemma lcs_app xs1 xs2 ys1 ys2 :
  lcs xs1 ys1 + lcs xs2 ys2 ≤ lcs (xs1 ++ xs2) (ys1 ++ ys2).
Proof.
  revert ys1. induction xs1 as [|x xs1 IHx]; intros ys1.
  { simpl. apply lcs_app_r_le. }
  induction ys1 as [|y ys1 IHy].
  { rewrite lcs_nil_r. simpl. apply (lcs_app_l_le (x :: xs1)). }
  simpl app. rewrite !lcs_cons. case_decide.
  - specialize (IHx ys1). lia.
  - specialize (IHx (y :: ys1)). simpl app in *. lia.
Qed.

Lemma lcs_same_prefix zs xs ys :
  length zs + lcs xs ys ≤ lcs (zs ++ xs) (zs ++ ys).
Proof.
  induction zs as [|z zs IH]; [done|].
  simpl app. rewrite lcs_cons, decide_True by done. simpl length. lia.
Qed.

Lemma lcs_block xs1 xs3 ys1 ys3 zs :
  lcs xs1 ys1 + length zs + lcs xs3 ys3
  ≤ lcs (xs1 ++ zs ++ xs3) (ys1 ++ zs ++ ys3).
Proof.
  etrans; [|apply lcs_app]. pose proof (lcs_same_prefix zs xs3 ys3). lia.
Qed.


Lemma lcs_refl xs : lcs xs xs = length xs.
Proof.
  induction xs as [|x xs IH]; [done|].
  rewrite lcs_cons, decide_True by done. simpl length. by rewrite IH.
Qed.

Lemma inter_cons_both (X Y : gmultiset A) x :
  ({[+ x +]} ⊎ X) ∩ ({[+ x +]} ⊎ Y) = {[+ x +]} ⊎ (X ∩ Y).
Proof. multiset_solver. Qed.

Lemma inter_cons_l (X Y : gmultiset A) x : X ∩ Y ⊆ ({[+ x +]} ⊎ X) ∩ Y.
Proof. multiset_solver. Qed.

Lemma inter_cons_r (X Y : gmultiset A) y : X ∩ Y ⊆ X ∩ ({[+ y +]} ⊎ Y).
Proof. multiset_solver. Qed.

(** A common subsequence uses each element at most as often as it
    occurs on both sides. *)
Lemma lcs_le_inter xs ys :
  lcs xs ys ≤ size (list_to_set_disj xs ∩ list_to_set_disj ys : gmultiset A).
Proof.
  revert ys. induction xs as [|x xs IHx]; intros ys; [simpl; lia|].
  induction ys as [|y ys IHy]; [rewrite lcs_nil_r; lia|].
  rewrite lcs_cons. case_decide as Hxy.
  - subst y. rewrite !list_to_set_disj_cons, inter_cons_both.
    rewrite gmultiset_size_disj_union, gmultiset_size_singleton.
    specialize (IHx ys). lia.
  - apply Nat.max_lub.
    + etrans; [apply IHx|]. apply gmultiset_subseteq_size.
      rewrite (list_to_set_disj_cons x xs). apply inter_cons_l.
    + etrans; [apply IHy|]. apply gmultiset_subseteq_size.
      rewrite (list_to_set_disj_cons y ys). apply inter_cons_r.
Qed.

End lcs.

(** ** [__chain_b] *)

Section chain_b.
Context `{Countable A}.
Implicit Types a b : list A.

Lemma chain_indices_snoc b y :
  chain_indices (b ++ [y]) =
    <[y := default [] (chain_indices b !! y) ++ [length b]]> (chain_indices b).
Proof.
  unfold chain_indices. rewrite imap_app, foldl_app. simpl.
  by rewrite Nat.add_0_r.
Qed.

Lemma chain_indices_chained b : chained b (chain_indices b).
Proof.
  induction b as [|y b IH] using rev_ind.
  { intros x. unfold chain_indices. simpl. rewrite lookup_empty.
    by intros j. }
  intros x. rewrite chain_indices_snoc.
  destruct (decide (y = x)) as [->|Hne].
  - rewrite lookup_insert_eq. specialize (IH x).
    destruct (chain_indices b !! x) as [js|]; simpl.
    + destruct IH as [Hjs Hsorted]. split.
      * intros j. rewrite elem_of_app, list_elem_of_singleton, Hjs.
        rewrite lookup_snoc_Some. split.
        -- intros [Hj| ->]; [|by right]. left. split; [|done].
           by eapply lookup_lt_Some.
        -- intros [[_ Hj]|[-> _]]; [by left|by right].
      * apply StronglySorted_app. split_and!; [|done|repeat constructor].
        intros j1 j2 Hj1 ->%list_elem_of_singleton.
        apply Hjs in Hj1. by eapply lookup_lt_Some.
    + split; [|repeat constructor].
      intros j. rewrite list_elem_of_singleton, lookup_snoc_Some.
      split; [by right|]. intros [[_ Hj]|[-> _]]; [|done].
      by destruct (IH j).
  - rewrite lookup_insert_ne by done. specialize (IH x).
    destruct (chain_indices b !! x) as [js|].
    + destruct IH as [Hjs Hsorted]. split; [|done].
      intros j. rewrite Hjs, lookup_snoc_Some. split.
      * intros Hj. left. split; [|done]. by eapply lookup_lt_Some.
      * intros [[_ Hj]|[_ Heq]]; [done|by destruct Hne].
    + intros j. rewrite lookup_snoc_Some.
      intros [[_ Hj]|[_ Heq]]; [by destruct (IH j)|by destruct Hne].
Qed.

Lemma lookup_foldr_delete {V} (m : gmap A V) (l : list A) (x : A) :
  foldr delete m l !! x = if decide (x ∈ l) then None else m !! x.
Proof.
  induction l as [|y l IH]; [done|]. cbn [foldr].
  destruct (decide (y = x)) as [->|Hne].
  - rewrite lookup_delete_eq.
    by rewrite (decide_True _ _ (list_elem_of_here x l)).
  - rewrite lookup_delete_ne, IH by done.
    destruct (decide (x ∈ l)) as [Hin|Hnin].
    + rewrite decide_True; [done|by apply list_elem_of_further].
    + rewrite decide_False; [done|].
      intros [?|?]%elem_of_cons; congruence.
Qed.

Lemma new_self_a a b : self_a (new a b) = a.
Proof. unfold new, chain_b. by case_decide. Qed.

Lemma new_self_b a b : self_b (new a b) = b.
Proof. unfold new, chain_b. by case_decide. Qed.


(** Whatever is left in [b2j] is what the first loop put there. *)
Lemma new_b2j_Some a b x js :
  b2j (new a b) !! x = Some js → chain_indices b !! x = Some js.
Proof.
  unfold new, chain_b. case_decide; simpl; [|done].
  rewrite lookup_foldr_delete. by case_decide.
Qed.

(** [b2j] does not depend on the first sequence. *)
Lemma new_b2j a a' b : b2j (new a b) = b2j (new a' b).
Proof. unfold new, chain_b. by case_decide. Qed.

Lemma new_b2j_places a b x js :
  b2j (new a b) !! x = Some js →
  (∀ j, j ∈ js ↔ b !! j = Some x) ∧ StronglySorted lt js.
Proof.
  intros Hx%new_b2j_Some. pose proof (chain_indices_chained b x) as Hc.
  by rewrite Hx in Hc.
Qed.

Lemma new_b2j_sound a b : b2j_sound (new a b).
Proof.
  intros x js j Hx Hj. rewrite new_self_b.
  by apply (new_b2j_places a b x js Hx).
Qed.

End chain_b.

(** ** [find_longest_match] returns a block of equal elements *)

Section find_longest_match.
Context `{Countable A}.
Implicit Types a b : list A.
Implicit Types self : SequenceMatcher A.

Lemma block_ok_widen a b alo ahi blo bhi ahi' bhi' m :
  ahi ≤ ahi' → bhi ≤ bhi' →
  block_ok a b alo ahi blo bhi m → block_ok a b alo ahi' blo bhi' m.
Proof. unfold block_ok. intros ?? (?&?&?&?&?). split_and!; auto; lia. Qed.

Lemma block_ok_empty a b alo ahi blo bhi :
  alo ≤ ahi → blo ≤ bhi → block_ok a b alo ahi blo bhi (mkMatch alo blo 0).
Proof. unfold block_ok. simpl. intros. split_and!; lia. Qed.

(** The run that ends at [a[i]], [b[j]] when both hold [x]. *)
Lemma run_extend a b alo blo i j x j2len :
  rows_to a b alo blo i j2len →
  a !! i = Some x → b !! j = Some x → alo ≤ i → blo ≤ j →
  let k := j2lenget j2len j + 1 in
  k ≤ i + 1 ∧ k ≤ j + 1 ∧
  block_ok a b alo (i + 1) blo (j + 1) (mkMatch (i + 1 - k) (j + 1 - k) k).
Proof.
  intros Hrows Ha Hb Hi Hj.
  assert (j2lenget j2len j = 0 ∨
          ∃ j' k', j = S j' ∧ j2len !! j' = Some k' ∧ j2lenget j2len j = k')
    as [->|(j' & k' & -> & Hk' & ->)].
  { destruct j as [|j']; [by left|]. simpl.
    destruct (j2len !! j') as [k'|] eqn:Hk'; [right; eauto|by left]. }
  - unfold block_ok. cbn [m_a m_b m_size]. split_and!; try lia.
    intros t Ht. exists x.
    by replace (i + 1 - (0 + 1) + t) with i by lia;
       replace (j + 1 - (0 + 1) + t) with j by lia.
  - destruct (Hrows j' k' Hk') as (Hki & Hkj & Hlo & Hhi & Hblo & Hbhi & Helts).
    cbn [m_a m_b m_size] in *.
    unfold block_ok. cbn [m_a m_b m_size]. split_and!; try lia.
    intros t Ht. destruct (decide (t < k')) as [Hlt|Hge].
    + destruct (Helts t Hlt) as (y & Hy1 & Hy2). exists y.
      by replace (i + 1 - (k' + 1) + t) with (i - k' + t) by lia;
         replace (S j' + 1 - (k' + 1) + t) with (j' + 1 - k' + t) by lia.
    + exists x.
      by replace (i + 1 - (k' + 1) + t) with i by lia;
         replace (S j' + 1 - (k' + 1) + t) with (S j') by lia.
Qed.

Lemma flm_row_ok a b alo ahi blo bhi i x j2len js newj2len best :
  (∀ j, j ∈ js → b !! j = Some x) → a !! i = Some x →
  alo ≤ i → i < ahi →
  rows_to a b alo blo i j2len →
  rows_to a b alo blo (i + 1) newj2len →
  block_ok a b alo ahi blo bhi best →
  rows_to a b alo blo (i + 1) (flm_row j2len i blo bhi js newj2len best).1 ∧
  block_ok a b alo ahi blo bhi (flm_row j2len i blo bhi js newj2len best).2.
Proof.
  intros Hjs Ha Hi Hahi Hprev. revert newj2len best.
  induction js as [|j js IH]; intros newj2len best Hnew Hbest; [done|].
  simpl. case_decide as Hblo.
  { apply IH; [|done..]. intros j' Hj'. apply Hjs. by right. }
  case_decide as Hbhi; [done|].
  assert (b !! j = Some x) as Hb by (apply Hjs; left).
  destruct (run_extend a b alo blo i j x j2len) as (Hki & Hkj & Hrun);
    [done|done|done|lia|lia|].
  apply IH.
  - intros j' Hj'. apply Hjs. by right.
  - intros j' k'. rewrite lookup_insert. case_decide as Hjj'; [|by apply Hnew].
    intros [= <-]. by subst j'.
  - case_decide; [|done].
    eapply block_ok_widen; [| |exact Hrun]; lia.
Qed.

Lemma rows_to_empty a b alo blo e : rows_to a b alo blo e ∅.
Proof. intros j k. by rewrite lookup_empty. Qed.

Lemma flm_rows_ok self alo ahi blo bhi n i j2len best :
  b2j_sound self → alo ≤ i → i + n ≤ ahi →
  rows_to (self_a self) (self_b self) alo blo i j2len →
  block_ok (self_a self) (self_b self) alo ahi blo bhi best →
  block_ok (self_a self) (self_b self) alo ahi blo bhi
           (flm_rows self blo bhi (seq i n) j2len best).
Proof.
  intros Hsound. revert i j2len best.
  induction n as [|n IH]; intros i j2len best Hi Hn Hrows Hbest; [done|].
  simpl.
  destruct (flm_row j2len i blo bhi _ ∅ best) as [newj2len best'] eqn:Hrow.
  assert (rows_to (self_a self) (self_b self) alo blo (i + 1) newj2len ∧
          block_ok (self_a self) (self_b self) alo ahi blo bhi best')
    as [Hnew Hbest'].
  { destruct (self_a self !! i) as [x|] eqn:Hx;
      [destruct (b2j self !! x) as [js|] eqn:Hjs|]; simpl in Hrow.
    - pose proof (flm_row_ok (self_a self) (self_b self) alo ahi blo bhi i x
                    j2len js ∅ best) as Hok.
      rewrite Hrow in Hok.
      apply Hok; [|done|done|lia|done|apply rows_to_empty|done].
      intros j Hj. by eapply Hsound.
    - injection Hrow as <- <-. split; [apply rows_to_empty|done].
    - injection Hrow as <- <-. split; [apply rows_to_empty|done]. }
  apply IH; [lia|lia| |done]. by replace (S i) with (i + 1) by lia.
Qed.

Lemma same_elt_Some self i j :
  same_elt self i j = true →
  ∃ x, self_a self !! i = Some x ∧ self_b self !! j = Some x.
Proof.
  unfold same_elt. destruct (self_a self !! i) as [x|]; [|done].
  destruct (self_b self !! j) as [y|]; [|done].
  intros ->%bool_decide_eq_true. by exists y.
Qed.

Lemma extend_left_ok self want_junk alo ahi blo bhi besti bestj bestsize :
  block_ok (self_a self) (self_b self) alo ahi blo bhi
           (mkMatch besti bestj bestsize) →
  block_ok (self_a self) (self_b self) alo ahi blo bhi
           (extend_left self want_junk alo blo besti bestj bestsize).
Proof.
  revert bestj bestsize.
  induction besti as [|i' IH]; intros bestj bestsize Hok; [done|].
  simpl. destruct (_ && _) eqn:Hcond; [|done].
  repeat (apply andb_prop in Hcond as [Hcond ?]).
  apply bool_decide_eq_true in Hcond.
  match goal with Hb : bool_decide (blo < bestj) = true |- _ =>
    apply bool_decide_eq_true in Hb end.
  match goal with Hs : same_elt _ _ _ = true |- _ =>
    apply same_elt_Some in Hs as (x & Hxa & Hxb) end.
  apply IH. destruct Hok as (Hlo & Hhi & Hblo & Hbhi & Helts). simpl in *.
  unfold block_ok; simpl. split_and!; try lia.
  intros [|t] Ht.
  - exists x. by rewrite !Nat.add_0_r.
  - destruct (Helts t ltac:(lia)) as (y & Hy1 & Hy2). exists y.
    by replace (i' + S t) with (S i' + t) by lia;
       replace (bestj - 1 + S t) with (bestj + t) by lia.
Qed.

Lemma extend_right_ok self want_junk alo ahi blo bhi besti bestj bestsize room :
  besti + bestsize + room ≤ ahi →
  block_ok (self_a self) (self_b self) alo ahi blo bhi
           (mkMatch besti bestj bestsize) →
  block_ok (self_a self) (self_b self) alo ahi blo bhi
           (extend_right self want_junk bhi besti bestj bestsize room).
Proof.
  revert bestsize.
  induction room as [|room IH]; intros bestsize Hroom Hok; [done|].
  simpl. destruct (_ && _) eqn:Hcond; [|done].
  repeat (apply andb_prop in Hcond as [Hcond ?]).
  apply bool_decide_eq_true in Hcond.
  match goal with Hs : same_elt _ _ _ = true |- _ =>
    apply same_elt_Some in Hs as (x & Hxa & Hxb) end.
  apply IH; [lia|].
  destruct Hok as (Hlo & Hhi & Hblo & Hbhi & Helts). simpl in *.
  unfold block_ok; simpl. split_and!; try lia.
  intros t Ht. destruct (decide (t < bestsize)) as [Hlt|Hge]; [auto|].
  exists x. by replace t with bestsize by lia.
Qed.

Lemma extend_ok self want_junk alo ahi blo bhi m :
  block_ok (self_a self) (self_b self) alo ahi blo bhi m →
  block_ok (self_a self) (self_b self) alo ahi blo bhi
           (extend self want_junk alo ahi blo bhi m).
Proof.
  intros Hok. unfold extend. destruct m as [i j k].
  apply (extend_left_ok self want_junk) in Hok. simpl.
  destruct (extend_left _ _ _ _ _ _ _) as [i' j' k'] eqn:Hl. simpl.
  apply extend_right_ok; [|done].
  destruct Hok as (_ & Hhi & _). simpl in Hhi. lia.
Qed.

(** The block that [find_longest_match] returns lies in the window it
    was asked to search and pairs equal elements. *)
Lemma find_longest_match_ok self alo ahi blo bhi :
  b2j_sound self → alo ≤ ahi → blo ≤ bhi →
  block_ok (self_a self) (self_b self) alo ahi blo bhi
           (find_longest_match self alo ahi blo bhi).
Proof.
  intros Hsound Ha Hb. unfold find_longest_match.
  do 2 apply extend_ok.
  apply flm_rows_ok; [done|lia|lia|apply rows_to_empty|].
  by apply block_ok_empty.
Qed.

End find_longest_match.

(** ** [get_matching_blocks] ends, and matches no more than a common
    subsequence *)

Section get_matching_blocks.
Context `{Countable A}.
Implicit Types a b : list A.
Implicit Types self : SequenceMatcher A.

Lemma slice_split a lo mid hi :
  lo ≤ mid ≤ hi → slice a lo hi = slice a lo mid ++ slice a mid hi.
Proof.
  intros [Hlo Hhi]. unfold slice.
  replace (hi - lo) with ((mid - lo) + (hi - mid)) by lia.
  rewrite <- take_take_drop, drop_drop. do 3 f_equal. lia.
Qed.

Lemma slice_all a : slice a 0 (length a) = a.
Proof. unfold slice. by rewrite Nat.sub_0_r, drop_0, firstn_all. Qed.

Lemma lookup_slice a lo hi t :
  t < hi - lo → slice a lo hi !! t = a !! (lo + t).
Proof. intros Ht. unfold slice. by rewrite lookup_take_lt, lookup_drop. Qed.

Lemma block_ok_slices a b alo ahi blo bhi m :
  block_ok a b alo ahi blo bhi m →
  slice a (m_a m) (m_a m + m_size m) = slice b (m_b m) (m_b m + m_size m) ∧
  length (slice a (m_a m) (m_a m + m_size m)) = m_size m.
Proof.
  intros (_ & _ & _ & _ & Helts). split.
  - apply list_eq. intros t. destruct (decide (t < m_size m)) as [Hlt|Hge].
    + rewrite !lookup_slice by lia.
      destruct (Helts t Hlt) as (x & -> & ->). done.
    + unfold slice. rewrite !lookup_take_ge; [done|lia..].
  - unfold slice. rewrite length_take, length_drop.
    destruct (m_size m) as [|k] eqn:Hk; [lia|].
    destruct (Helts k ltac:(lia)) as (x & Hx%lookup_lt_Some & _). lia.
Qed.

(** What is matched left and right of a block, and the block itself,
    fit in a common subsequence of the window. *)
Lemma window_lcs_block a b alo ahi blo bhi m :
  block_ok a b alo ahi blo bhi m →
  window_lcs a b (alo, m_a m, blo, m_b m) + m_size m +
  window_lcs a b (m_a m + m_size m, ahi, m_b m + m_size m, bhi)
  ≤ window_lcs a b (alo, ahi, blo, bhi).
Proof.
  intros Hok. pose proof (block_ok_slices _ _ _ _ _ _ _ Hok) as [Heq Hlen].
  destruct Hok as (Hlo & Hhi & Hblo & Hbhi & _). unfold window_lcs.
  rewrite (slice_split a alo (m_a m) ahi) by lia.
  rewrite (slice_split a (m_a m) (m_a m + m_size m) ahi) by lia.
  rewrite (slice_split b blo (m_b m) bhi) by lia.
  rewrite (slice_split b (m_b m) (m_b m + m_size m) bhi) by lia.
  rewrite <- Heq, <- Hlen at 1. apply lcs_block.
Qed.

Lemma sum_fmap_cons {B} (f : B → nat) x l :
  sum_list (f <$> x :: l) = f x + sum_list (f <$> l).
Proof. reflexivity. Qed.

Lemma sum_fmap_snoc {B} (f : B → nat) x l :
  sum_list (f <$> l ++ [x]) = sum_list (f <$> l) + f x.
Proof. rewrite fmap_app, sum_list_with_app. simpl. lia. Qed.

Lemma window_cost_eq alo ahi blo bhi :
  window_cost (alo, ahi, blo, bhi) = 2 * (ahi - alo) + 1.
Proof. reflexivity. Qed.

Lemma blocks_loop_runs self fuel queue acc :
  b2j_sound self →
  Forall (window_ok (length (self_a self)) (length (self_b self))) queue →
  sum_list (window_cost <$> queue) ≤ fuel →
  ∃ bs, blocks_loop fuel self queue acc = Ok bs ∧
    sum_list (m_size <$> bs)
    ≤ sum_list (m_size <$> acc) +
      sum_list (window_lcs (self_a self) (self_b self) <$> queue).
Proof.
  intros Hsound. revert queue acc.
  induction fuel as [|fuel IH]; intros queue acc Hwin Hcost.
  { destruct queue as [|[[[alo ahi] blo] bhi] queue].
    - exists acc. split; [done|lia].
    - rewrite sum_fmap_cons, window_cost_eq in Hcost. lia. }
  destruct queue as [|[[[alo ahi] blo] bhi] queue].
  { exists acc. split; [done|lia]. }
  rewrite sum_fmap_cons in Hcost |- *. rewrite window_cost_eq in Hcost.
  cbn [blocks_loop].
  apply Forall_cons in Hwin as [(Ha & Hb) Hwin].
  pose proof (find_longest_match_ok self alo ahi blo bhi Hsound
                ltac:(lia) ltac:(lia)) as Hok.
  pose proof (window_lcs_block _ _ _ _ _ _ _ Hok) as Hlcs.
  destruct (find_longest_match self alo ahi blo bhi) as [i j k].
  pose proof Hok as (Hlo & Hhi & Hblo & Hbhi & _).
  cbn [m_a m_b m_size] in *.
  case_decide as Hk.
  { destruct (IH queue acc Hwin ltac:(lia)) as (bs & Hbs & Hsum).
    exists bs. split; [done|]. lia. }
  set (left := if decide (alo < i ∧ blo < j)
               then (alo, i, blo, j) :: queue else queue).
  set (right := if decide (i + k < ahi ∧ j + k < bhi)
                then (i + k, ahi, j + k, bhi) :: left else left).
  destruct (IH right (acc ++ [mkMatch i j k])) as (bs & Hbs & Hsum).
  - subst right left.
    repeat case_decide; repeat (constructor; [split; lia|]); done.
  - subst right left.
    repeat case_decide; rewrite ?sum_fmap_cons, ?window_cost_eq; lia.
  - exists bs. split; [done|].
    rewrite sum_fmap_snoc in Hsum. cbn [m_size] in Hsum.
    assert (sum_list (window_lcs (self_a self) (self_b self) <$> right)
            ≤ window_lcs (self_a self) (self_b self) (alo, i, blo, j) +
              window_lcs (self_a self) (self_b self)
                         (i + k, ahi, j + k, bhi) +
              sum_list (window_lcs (self_a self) (self_b self) <$> queue)).
    { subst right left. repeat case_decide; rewrite ?sum_fmap_cons; lia. }
    lia.
Qed.

Lemma collapse_loop_sum l cur non_adjacent :
  let st := foldl collapse_step (cur, non_adjacent) l in
  m_size st.1 + sum_list (m_size <$> st.2) =
    m_size cur + sum_list (m_size <$> non_adjacent) + sum_list (m_size <$> l).
Proof.
  revert cur non_adjacent.
  induction l as [|x l IH]; intros cur non_adjacent; [simpl; lia|].
  cbn [foldl]. rewrite sum_fmap_cons.
  destruct (collapse_step (cur, non_adjacent) x) as [cur' na'] eqn:Hstep.
  cbv zeta in IH |- *. rewrite IH.
  unfold collapse_step in Hstep.
  repeat case_decide; simplify_eq; rewrite ?sum_fmap_snoc;
    cbn [m_size]; lia.
Qed.

(** Merging adjacent blocks keeps the number of matched elements. *)
Lemma collapse_sum la lb l :
  sum_list (m_size <$> collapse la lb l) = sum_list (m_size <$> l).
Proof.
  unfold collapse. pose proof (collapse_loop_sum l (mkMatch 0 0 0) []) as Hsum.
  destruct (foldl _ _ l) as [cur non_adjacent]. simpl in Hsum.
  case_decide; rewrite ?sum_fmap_snoc; cbn [m_size]; lia.
Qed.

(** [get_matching_blocks] returns, and its blocks hold at most as many
    elements as a longest common subsequence. *)
Lemma get_matching_blocks_runs self :
  b2j_sound self →
  ∃ bs, get_matching_blocks self = Ok bs ∧
    sum_list (m_size <$> bs) ≤ lcs (self_a self) (self_b self).
Proof.
  intros Hsound. unfold get_matching_blocks.
  destruct (blocks_loop_runs self (2 * length (self_a self) + 1)
              [(0, length (self_a self), 0, length (self_b self))] []
              Hsound) as (bs & -> & Hsum).
  - repeat constructor; lia.
  - simpl. lia.
  - eexists. split; [done|]. rewrite collapse_sum.
    rewrite merge_sort_Permutation.
    simpl in Hsum. unfold window_lcs in Hsum.
    rewrite !slice_all in Hsum. lia.
Qed.

Lemma ratio_runs self :
  b2j_sound self →
  ∃ matches, ratio self =
               Ok (_calculate_ratio matches
                     (length (self_a self) + length (self_b self))) ∧
    matches ≤ lcs (self_a self) (self_b self).
Proof.
  intros Hsound. unfold ratio.
  destruct (get_matching_blocks_runs self Hsound) as (bs & -> & Hsum).
  by eexists.
Qed.

End get_matching_blocks.

(** ** [quick_ratio] and [real_quick_ratio] are upper bounds *)

Section quick_ratio.
Context `{Countable A}.
Implicit Types a b : list A.
Implicit Types self : SequenceMatcher A.
Implicit Types X Y M : gmultiset A.

Lemma size_list_to_set_disj a :
  size (list_to_set_disj a : gmultiset A) = length a.
Proof.
  induction a as [|x a IH]; [done|].
  rewrite list_to_set_disj_cons, gmultiset_size_disj_union,
    gmultiset_size_singleton, IH. done.
Qed.

(** [fullbcount] counts the elements of [b]. *)
Lemma fullbcount_spec self x :
  default 0%Z (fullbcount self !! x) =
    Z.of_nat (multiplicity x (list_to_set_disj (self_b self) : gmultiset A)).
Proof.
  unfold fullbcount. induction (self_b self) as [|y b IH] using rev_ind.
  { simpl. by rewrite lookup_empty. }
  rewrite foldl_snoc, list_to_set_disj_app, multiplicity_disj_union.
  rewrite list_to_set_disj_cons, list_to_set_disj_nil.
  rewrite multiplicity_disj_union, multiplicity_empty, multiplicity_singleton.
  destruct (decide (y = x)) as [->|Hne].
  - rewrite lookup_insert_eq, decide_True by done. simpl. lia.
  - rewrite lookup_insert_ne, decide_False by done. lia.
Qed.

Lemma inter_take X M x :
  x ∈ M → ({[+ x +]} ⊎ X) ∩ M = {[+ x +]} ⊎ (X ∩ (M ∖ {[+ x +]})).
Proof.
  intros Hin.
  assert (0 < multiplicity x M) as Hpos by (by apply elem_of_multiplicity).
  apply gmultiset_eq. intros y.
  rewrite multiplicity_intersection, !multiplicity_disj_union,
    multiplicity_intersection, multiplicity_difference,
    multiplicity_singleton.
  case_decide; subst; lia.
Qed.

Lemma inter_skip X M x : x ∉ M → ({[+ x +]} ⊎ X) ∩ M = X ∩ M.
Proof.
  intros Hnin.
  assert (multiplicity x M = 0) as Hzero.
  { destruct (multiplicity x M) eqn:Hm; [done|]. destruct Hnin.
    apply elem_of_multiplicity. lia. }
  apply gmultiset_eq. intros y.
  rewrite !multiplicity_intersection, multiplicity_disj_union,
    multiplicity_singleton.
  case_decide; subst; lia.
Qed.

(** The loop counts the elements of [a] that are still available. *)
Lemma quick_loop_spec full a avail matches M :
  (∀ x, Z.to_nat (available full avail x) = multiplicity x M) →
  (foldl (quick_step full) (avail, matches) a).2 =
    matches + size (list_to_set_disj a ∩ M).
Proof.
  revert avail matches M.
  induction a as [|x a IH]; intros avail matches M HM.
  { cbn [foldl snd]. rewrite list_to_set_disj_nil.
    replace (∅ ∩ M) with (∅ : gmultiset A) by multiset_solver.
    rewrite gmultiset_size_empty. lia. }
  cbn [foldl]. unfold quick_step at 2.
  fold (available full avail x). rewrite list_to_set_disj_cons.
  pose proof (HM x) as HMx.
  case_decide as Hnumb.
  - assert (x ∈ M) as Hin by (apply elem_of_multiplicity; lia).
    rewrite (IH _ _ (M ∖ {[+ x +]})).
    + rewrite inter_take, gmultiset_size_disj_union,
        gmultiset_size_singleton by done. lia.
    + intros y. rewrite multiplicity_difference, multiplicity_singleton.
      unfold available in *. destruct (decide (y = x)) as [->|Hne].
      * rewrite lookup_insert_eq. lia.
      * rewrite lookup_insert_ne by done. specialize (HM y). lia.
  - assert (x ∉ M) as Hnin by (rewrite elem_of_multiplicity; lia).
    rewrite (IH _ _ M).
    + by rewrite inter_skip.
    + intros y. unfold available in *.
      destruct (decide (y = x)) as [->|Hne].
      * rewrite lookup_insert_eq.
        assert (multiplicity x M = 0); [|lia].
        destruct (multiplicity x M) eqn:Hm; [done|]. destruct Hnin.
        apply elem_of_multiplicity. lia.
      * rewrite lookup_insert_ne by done. apply HM.
Qed.

Lemma quick_matches_eq self :
  quick_matches self =
    size (list_to_set_disj (self_a self) ∩ list_to_set_disj (self_b self)
          : gmultiset A).
Proof.
  unfold quick_matches. rewrite (quick_loop_spec _ _ _ _
    (list_to_set_disj (self_b self))); [done|].
  intros x. unfold available. rewrite lookup_empty, fullbcount_spec. lia.
Qed.

Lemma lcs_le_quick_matches self :
  lcs (self_a self) (self_b self) ≤ quick_matches self.
Proof. rewrite quick_matches_eq. apply lcs_le_inter. Qed.

Lemma quick_matches_le_min self :
  quick_matches self ≤ length (self_a self) `min` length (self_b self).
Proof.
  rewrite quick_matches_eq. apply Nat.min_glb.
  - rewrite <- size_list_to_set_disj. apply gmultiset_subseteq_size.
    multiset_solver.
  - rewrite <- (size_list_to_set_disj (self_b self)).
    apply gmultiset_subseteq_size. multiset_solver.
Qed.

End quick_ratio.

(** ** Two equal sequences match in one block *)

Section same.
Context `{Countable A}.
Variable s : list A.
Local Abbreviation self := (new s s).
Local Abbreviation n := (length s).




















End same.

(** ** The order of the tuples [(score, x)] and [max] *)

Section order.

Lemma ascii_compare_refl c : Ascii.compare c c = Eq.
Proof. unfold Ascii.compare. apply N.compare_refl. Qed.

Lemma string_compare_refl x : String.compare x x = Eq.
Proof.
  induction x as [|c x IH]; [done|]. simpl. by rewrite ascii_compare_refl.
Qed.

Lemma string_compare_Eq x y : String.compare x y = Eq ↔ x = y.
Proof.
  split; [apply String.compare_eq_iff|]. intros ->.
  apply string_compare_refl.
Qed.

Lemma string_compare_Lt_trans x y z :
  String.compare x y = Lt → String.compare y z = Lt →
  String.compare x z = Lt.
Proof.
  revert y z. induction x as [|a x IH]; intros [|b y] [|c z]; simpl;
    try done.
  unfold Ascii.compare.
  destruct (N.compare_spec (N_of_ascii a) (N_of_ascii b)) as [Hab|Hab|Hab];
    destruct (N.compare_spec (N_of_ascii b) (N_of_ascii c)) as [Hbc|Hbc|Hbc];
    try done; intros Hxy Hyz.
  - rewrite Hab, Hbc, N.compare_refl. by eapply IH.
  - rewrite Hab. by apply N.compare_lt_iff in Hbc as ->.
  - rewrite <- Hbc. by apply N.compare_lt_iff in Hab as ->.
  - assert (N_of_ascii a < N_of_ascii c)%N as Hac by lia.
    by apply N.compare_lt_iff in Hac as ->.
Qed.

Lemma string_compare_le_trans x y z :
  String.compare x y ≠ Gt → String.compare y z ≠ Gt →
  String.compare x z ≠ Gt.
Proof.
  intros Hle1 Hle2.
  destruct (String.compare x y) eqn:Hxy; [| |done];
    (destruct (String.compare y z) eqn:Hyz; [| |done]).
  - apply string_compare_Eq in Hxy, Hyz. subst.
    by rewrite string_compare_refl.
  - apply string_compare_Eq in Hxy. subst. by rewrite Hyz.
  - apply string_compare_Eq in Hyz. subst. by rewrite Hxy.
  - by rewrite (string_compare_Lt_trans x y z).
Qed.

Lemma string_compare_le_antisym x y :
  String.compare x y ≠ Gt → String.compare y x ≠ Gt → x = y.
Proof.
  rewrite (String.compare_antisym y x).
  destruct (String.compare x y) eqn:Hxy; try done.
  intros _ _. by apply string_compare_Eq.
Qed.

Lemma tuple_ge_refl v : tuple_ge v v.
Proof. right. split; [reflexivity|]. by rewrite string_compare_refl. Qed.

Lemma tuple_ge_trans u v w : tuple_ge u v → tuple_ge v w → tuple_ge u w.
Proof.
  intros [Huv|[Huv Huv']] [Hvw|[Hvw Hvw']].
  - left. lra.
  - left. lra.
  - left. lra.
  - right. split; [lra|]. by eapply string_compare_le_trans.
Qed.

(** Two tuples that are each at least the other have equal scores and
    the same text. *)
Lemma tuple_ge_antisym v w :
  tuple_ge v w → tuple_ge w v → (v.1 == w.1)%Q ∧ v.2 = w.2.
Proof.
  intros [Hvw|[Hvw Hvw']] [Hwv|[Hwv Hwv']].
  - lra.
  - lra.
  - lra.
  - split; [done|]. by apply string_compare_le_antisym.
Qed.

Lemma tuple_gt_true v w : heapq.tuple_gt v w = true → tuple_ge v w.
Proof.
  unfold heapq.tuple_gt.
  destruct (Qeq_bool v.1 w.1) eqn:Heq; simpl.
  - apply Qeq_bool_iff in Heq.
    destruct (String.eqb v.2 w.2); simpl; [done|].
    unfold String.ltb. destruct (String.compare w.2 v.2) eqn:Hc; try done.
    intros _. right. split; [done|]. by rewrite Hc.
  - intros Hle%negb_true_iff. left. apply Qnot_le_lt.
    intros Hle'. apply Qle_bool_iff in Hle'. congruence.
Qed.

Lemma tuple_gt_false v w : heapq.tuple_gt v w = false → tuple_ge w v.
Proof.
  unfold heapq.tuple_gt.
  destruct (Qeq_bool v.1 w.1) eqn:Heq; simpl.
  - apply Qeq_bool_iff in Heq. intros Hs. right. split; [by symmetry|].
    destruct (String.eqb_spec v.2 w.2) as [->|Hne]; simpl in Hs.
    + by rewrite string_compare_refl.
    + rewrite (String.compare_antisym v.2 w.2). unfold String.ltb in Hs.
      by destruct (String.compare w.2 v.2).
  - intros Hle%negb_false_iff. apply Qle_bool_iff in Hle.
    apply Qeq_bool_neq in Heq. left.
    apply Qle_lt_or_eq in Hle as [Hlt|Heq']; [done|]. by destruct Heq.
Qed.

(** [max] returns an item of the list that is at least every item. *)
Lemma max_loop_spec it maxval :
  heapq.max_loop maxval it ∈ maxval :: it ∧
  ∀ w, w ∈ maxval :: it → tuple_ge (heapq.max_loop maxval it) w.
Proof.
  revert maxval. induction it as [|val it IH]; intros maxval; simpl.
  { split; [left|]. intros w ->%list_elem_of_singleton. apply tuple_ge_refl. }
  destruct (IH (if heapq.tuple_gt val maxval then val else maxval))
    as [Hin Hmax].
  assert (tuple_ge (if heapq.tuple_gt val maxval then val else maxval) maxval ∧
          tuple_ge (if heapq.tuple_gt val maxval then val else maxval) val)
    as [Hm Hv].
  { destruct (heapq.tuple_gt val maxval) eqn:Hgt.
    - split; [by apply tuple_gt_true|apply tuple_ge_refl].
    - split; [apply tuple_ge_refl|by apply tuple_gt_false]. }
  split.
  - apply elem_of_cons in Hin as [Hin|Hin]; [|by do 2 right].
    rewrite Hin. destruct (heapq.tuple_gt val maxval); [right|]; left.
  - intros w [->|[->|Hw]%elem_of_cons]%elem_of_cons.
    + eapply tuple_ge_trans; [|exact Hm]. apply Hmax. left.
    + eapply tuple_ge_trans; [|exact Hv]. apply Hmax. left.
    + apply Hmax. by right.
Qed.

End order.

(** ** The ratio of two strings *)

Section has_ratio.
Local Open Scope Q_scope.


Lemma chars_length x : length (chars x) = String.length x.
Proof. induction x as [|c x IH]; simpl; [done|]. by rewrite IH. Qed.

Lemma lower_empty s : lower s = EmptyString ↔ s = EmptyString.
Proof. by destruct s. Qed.

(** The ratio is always computed; it lies between [0.0] and [1.0] and
    below the two quick estimates. *)
Lemma has_ratio_ex x w :
  ∃ r, has_ratio x w r ∧ 0 <= r ∧ r <= 1 ∧
       r <= quick_ratio (new (chars x) (chars w)) ∧
       quick_ratio (new (chars x) (chars w))
       <= real_quick_ratio (new (chars x) (chars w)).
Proof.
  destruct (ratio_runs (new (chars x) (chars w)) (new_b2j_sound _ _))
    as (m & Hr & Hm).
  pose proof (lcs_le_quick_matches (new (chars x) (chars w))) as Hq.
  pose proof (quick_matches_le_min (new (chars x) (chars w))) as Hmin.
  exists (_calculate_ratio m (length (self_a (new (chars x) (chars w))) +
                               length (self_b (new (chars x) (chars w))))).
  split_and!; [done|apply calculate_ratio_nonneg| | |].
  - apply calculate_ratio_le_1. lia.
  - apply calculate_ratio_mono. lia.
  - apply calculate_ratio_mono. lia.
Qed.

Lemma has_ratio_fun x w r r' : has_ratio x w r → has_ratio x w r' → r = r'.
Proof. unfold has_ratio. congruence. Qed.

Lemma has_ratio_bounds x w r : has_ratio x w r → 0 <= r ∧ r <= 1.
Proof.
  intros Hr. destruct (has_ratio_ex x w) as (r' & Hr' & H0 & H1 & _).
  by rewrite (has_ratio_fun _ _ _ _ Hr Hr').
Qed.



(** When one of two strings is empty and the other is not, the ratio
    is [0.0]. *)
Lemma has_ratio_empty x w r :
  has_ratio x w r →
  (x = EmptyString ∧ w ≠ EmptyString) ∨ (x ≠ EmptyString ∧ w = EmptyString) →
  r == 0.
Proof.
  intros Hr Hempty.
  destruct (ratio_runs (new (chars x) (chars w)) (new_b2j_sound _ _))
    as (m & Hr' & Hm).
  unfold has_ratio in Hr. rewrite Hr in Hr'. injection Hr' as ->.
  rewrite new_self_a, new_self_b in *.
  pose proof (lcs_le_length_l (chars x) (chars w)).
  pose proof (lcs_le_length_r (chars x) (chars w)).
  rewrite !chars_length in *.
  assert (m = 0 ∧ 0 < String.length x + String.length w)%nat as [-> Hpos].
  { destruct Hempty as [[-> Hw]|[Hx ->]]; simpl in *.
    - destruct w; [done|]. simpl. lia.
    - destruct x; [done|]. simpl. lia. }
  by apply calculate_ratio_none.
Qed.

End has_ratio.

(** ** [get_close_matches] *)

Section get_close_matches.
Local Open Scope Q_scope.

(** The loop keeps, with its ratio, every possibility whose ratio is at
    least the cutoff: the two quick tests never reject one. *)
Lemma close_loop_spec word cutoff possibilities acc :
  ∃ l, close_loop word cutoff possibilities acc = Ok (acc ++ l) ∧
    ∀ r x, (r, x) ∈ l ↔
      x ∈ possibilities ∧ has_ratio x word r ∧ cutoff <= r.
Proof.
  revert acc. induction possibilities as [|x ps IH]; intros acc.
  { exists []. split; [by rewrite app_nil_r|].
    intros r x. rewrite elem_of_nil. split; [done|].
    by intros [?%elem_of_nil _]. }
  cbn [close_loop].
  destruct (has_ratio_ex x word) as (r & Hr & _ & _ & Hq & Hrq).
  destruct (Qle_bool cutoff r) eqn:Hcut.
  - assert (Qle_bool cutoff (real_quick_ratio (new (chars x) (chars word)))
            && Qle_bool cutoff (quick_ratio (new (chars x) (chars word)))
            = true) as ->.
    { apply Qle_bool_iff in Hcut. apply andb_true_intro.
      split; apply Qle_bool_iff; lra. }
    unfold has_ratio in Hr. rewrite Hr. cbn [mbind outcome_bind].
    rewrite Hcut. destruct (IH (acc ++ [(r, x)])) as (l & Hl & Hmem).
    exists ((r, x) :: l). split.
    { rewrite Hl. by rewrite <- app_assoc. }
    intros r' x'. rewrite !elem_of_cons, Hmem. split.
    + intros [[= -> ->]|(Hin & Hr' & Hle)].
      * split_and!; [by left|done|by apply Qle_bool_iff].
      * split_and!; [by right|done..].
    + intros ([->|Hin] & Hr' & Hle); [|by right].
      left. f_equal. unfold has_ratio in Hr'. congruence.
  - assert (close_loop word cutoff (x :: ps) acc =
            close_loop word cutoff ps acc) as Hskip.
    { cbn [close_loop]. destruct (_ && _); [|done].
      unfold has_ratio in Hr. rewrite Hr. cbn [mbind outcome_bind].
      by rewrite Hcut. }
    cbn [close_loop] in Hskip. rewrite Hskip.
    destruct (IH acc) as (l & Hl & Hmem). exists l. split; [done|].
    intros r' x'. rewrite Hmem, elem_of_cons. split.
    + intros (Hin & Hr' & Hle). split_and!; [by right|done..].
    + intros ([->|Hin] & Hr' & Hle); [|done].
      rewrite (has_ratio_fun _ _ _ _ Hr' Hr) in Hle.
      apply Qle_bool_iff in Hle. congruence.
Qed.

(** A cutoff outside [0.0, 1.0] is refused. *)
Lemma get_close_matches_range word possibilities cutoff :
  ¬ (0 <= cutoff ∧ cutoff <= 1) →
  get_close_matches word possibilities cutoff = Raise ValueError.
Proof.
  intros Hout. unfold get_close_matches.
  destruct (Qle_bool 0 cutoff && Qle_bool cutoff 1) eqn:Hin; [|done].
  apply andb_prop in Hin as [H0 H1]. apply Qle_bool_iff in H0, H1.
  by destruct Hout.
Qed.

(** Inside the range the call returns: the empty list when no
    possibility reaches the cutoff, otherwise the one possibility that
    is greatest by ratio and then by text. *)
Lemma get_close_matches_spec word possibilities cutoff :
  0 <= cutoff → cutoff <= 1 →
  (get_close_matches word possibilities cutoff = Ok [] ∧
   ∀ x r, x ∈ possibilities → has_ratio x word r → ¬ cutoff <= r) ∨
  (∃ x r, get_close_matches word possibilities cutoff = Ok [x] ∧
     x ∈ possibilities ∧ has_ratio x word r ∧ cutoff <= r ∧
     ∀ x' r', x' ∈ possibilities → has_ratio x' word r' → cutoff <= r' →
              tuple_ge (r, x) (r', x')).
Proof.
  intros H0 H1. unfold get_close_matches.
  assert (Qle_bool 0 cutoff && Qle_bool cutoff 1 = true) as ->.
  { apply andb_true_intro. split; by apply Qle_bool_iff. }
  cbn [negb]. destruct (close_loop_spec word cutoff possibilities [])
    as (l & -> & Hmem).
  cbn [mbind outcome_bind app]. destruct l as [|val it].
  - left. split; [done|]. intros x r Hin Hr Hle.
    by apply (elem_of_nil (r, x)), Hmem.
  - right. cbn [heapq.nlargest_1].
    destruct (max_loop_spec it val) as [Hin Hmax].
    destruct (heapq.max_loop val it) as [r x].
    apply Hmem in Hin as (Hin & Hr & Hle).
    exists x, r. split_and!; [done..|].
    intros x' r' Hin' Hr' Hle'. apply (Hmax (r', x')). by apply Hmem.
Qed.

(** The call never runs out of fuel. *)
Lemma get_close_matches_returns word possibilities cutoff :
  get_close_matches word possibilities cutoff ≠ OutOfFuel.
Proof.
  unfold get_close_matches. destruct (negb _); [done|].
  destruct (close_loop_spec word cutoff possibilities []) as (l & -> & _).
  done.
Qed.

End get_close_matches.

(** ** The two stages of the matcher *)

Section stages.
Local Open Scope Q_scope.
Implicit Types past : list pyval.
Implicit Types ss : list string.

Lemma first_where_here {X} (P : X → Prop) x l : P x → first_where P (x :: l) x.
Proof.
  intros HP. exists [], l. split_and!; [done..|].
  by intros y Hy%elem_of_nil.
Qed.

Lemma first_where_later {X} (P : X → Prop) x y l :
  ¬ P y → first_where P l x → first_where P (y :: l) x.
Proof.
  intros Hy (l1 & l2 & -> & HP & Hl1). exists (y :: l1), l2.
  split_and!; [done..|]. intros z [->|Hz]%elem_of_cons; auto.
Qed.

Lemma first_where_elem {X} (P : X → Prop) x l :
  first_where P l x → x ∈ l ∧ P x.
Proof.
  intros (l1 & l2 & -> & HP & _). split; [|done].
  apply elem_of_app. right. left.
Qed.

Lemma first_where_unique {X} (P : X → Prop) x y l :
  first_where P l x → first_where P l y → x = y.
Proof.
  intros (l1 & l2 & -> & Px & Hl1) (l1' & l2' & Heq & Py & Hl1').
  revert l1' Heq Hl1'. induction l1 as [|z l1 IH]; intros [|z' l1'] Heq Hl1';
    simplify_eq/=.
  - done.
  - exfalso. eapply Hl1'; [left|done].
  - exfalso. eapply Hl1; [left|done].
  - eapply IH; [|done|].
    + intros w Hw. apply Hl1. by right.
    + intros w Hw. apply Hl1'. by right.
Qed.

Lemma first_where_iff {X} (P Q : X → Prop) x l :
  (∀ y, P y ↔ Q y) → first_where P l x → first_where Q l x.
Proof.
  intros HPQ (l1 & l2 & -> & Px & Hl1). exists l1, l2.
  split_and!; [done|by apply HPQ|]. intros y Hy HQ. by apply (Hl1 y), HPQ.
Qed.

Lemma first_where_fmap {X Y} (f : X → Y) (P : Y → Prop) x l :
  first_where (λ z, P (f z)) l x → first_where P (f <$> l) (f x).
Proof.
  intros (l1 & l2 & -> & HP & Hl1). exists (f <$> l1), (f <$> l2).
  split_and!; [by rewrite fmap_app|done|].
  intros y (z & -> & Hz)%list_elem_of_fmap. by apply Hl1.
Qed.

Lemma past_items_strings ss :
  past_items_of (PStr <$> ss) = PStr <$> ss.
Proof.
  unfold past_items_of. rewrite <- list_fmap_compose.
  apply list_fmap_ext. intros i s _. simpl. unfold py_or. simpl.
  by destruct s.
Qed.

(** [names = [p.lower() for p in past_items]] raises at the first
    entry that is not a [str]. *)
Lemma mapM_lower_cases past :
  (∃ ss, past = PStr <$> ss ∧ mapM py_lower past = Ok (lower <$> ss)) ∨
  ((∃ p, p ∈ past ∧ ∀ s, p ≠ PStr s) ∧
   mapM py_lower past = Raise AttributeError).
Proof.
  induction past as [|p past IH].
  { left. by exists []. }
  destruct p as [|z|s].
  1,2: right; split; [eexists; split; [left|done]|done].
  destruct IH as [(ss & -> & Hss)|[(p & Hp & Hns) Hraise]].
  - left. exists (s :: ss). split; [done|].
    cbn [mapM py_lower mbind outcome_bind]. by rewrite Hss.
  - right. split; [exists p; split; [by right|done]|].
    cbn [mapM py_lower mbind outcome_bind]. by rewrite Hraise.
Qed.

(** [next(...)] finds the first entry with the matched lowered text. *)
Lemma next_orig_spec ss matched :
  matched ∈ lower <$> ss →
  ∃ o, next_orig (PStr <$> ss) matched = Ok (PStr o) ∧
       first_where (λ s, lower s = matched) ss o.
Proof.
  induction ss as [|s ss IH]; [by intros ?%elem_of_nil|].
  intros Hin. cbn [fmap list_fmap next_orig py_lower mbind outcome_bind].
  destruct (String.eqb_spec (lower s) matched) as [Heq|Hne].
  - exists s. split; [done|]. by apply first_where_here.
  - destruct IH as (o & Ho & Hfirst).
    { apply elem_of_cons in Hin as [Heq|Hin]; [by destruct Hne|done]. }
    exists o. split; [done|]. by apply first_where_later.
Qed.

Lemma qualifies_iff item_name threshold s :
  qualifies item_name threshold (PStr s) ↔
  ∃ r, has_ratio (lower s) (lower item_name) r ∧ threshold <= r.
Proof.
  split.
  - intros (s' & r & [= <-] & Hr & Hle). eauto.
  - intros (r & Hr & Hle). by exists s, r.
Qed.

(** What the first [try] block does. *)
Lemma quick_match_cases past item_name threshold :
  (∃ e, quick_match past item_name threshold = Raise e ∧
        ((∃ p, p ∈ past ∧ ∀ s, p ≠ PStr s) ∨
         ¬ (0 <= threshold ∧ threshold <= 1))) ∨
  (∃ ss, past = PStr <$> ss ∧ 0 <= threshold ∧ threshold <= 1 ∧
     ((quick_match past item_name threshold = Ok None ∧
       ∀ p, p ∈ past → ¬ qualifies item_name threshold p) ∨
      (∃ o, quick_match past item_name threshold = Ok (Some (Match (PStr o))) ∧
            stage1_choice item_name threshold ss o))).
Proof.
  unfold quick_match.
  destruct (mapM_lower_cases past) as [(ss & -> & ->)|[Hbad ->]];
    [|left; exists AttributeError; by split; [|left]].
  cbn [mbind outcome_bind].
  assert ((0 <= threshold ∧ threshold <= 1) ∨
          ¬ (0 <= threshold ∧ threshold <= 1)) as [[H0 H1]|Hout].
  { destruct (Qlt_le_dec threshold 0) as [Hneg|Hpos]; [right; lra|].
    destruct (Qlt_le_dec 1 threshold) as [Hbig|Hsmall]; [right; lra|].
    by left. }
  2: { left. exists ValueError.
       rewrite get_close_matches_range by done. by split; [|right]. }
  right. exists ss. split_and!; [done..|].
  destruct (get_close_matches_spec (lower item_name) (lower <$> ss)
              threshold H0 H1)
    as [[-> Hnone]|(x & r & -> & Hin & Hr & Hle & Hmax)];
    cbn [mbind outcome_bind].
  - left. split; [done|]. intros p (s & -> & Hs)%list_elem_of_fmap.
    intros (r & Hr & Hle)%qualifies_iff.
    apply (Hnone (lower s) r); [|done..].
    apply list_elem_of_fmap. eauto.
  - right. destruct (next_orig_spec ss x Hin) as (o & -> & Hfirst).
    cbn [mbind outcome_bind]. exists o. split; [done|].
    pose proof (first_where_elem _ _ _ Hfirst) as [_ Ho]. subst x.
    split; [done|]. exists r. split_and!; [done..|].
    intros s r' Hs Hr' Hle'. apply Hmax; [|done..].
    apply list_elem_of_fmap. eauto.
Qed.

(** The body of the fallback loop on one entry. *)
Lemma fallback_body_str s item_name threshold :
  ∃ r, has_ratio (lower s) (lower item_name) r ∧
    fallback_body (PStr s) item_name threshold =
      Ok (if Qle_bool threshold r then Some (Match (PStr s)) else None).
Proof.
  destruct (has_ratio_ex (lower s) (lower item_name)) as (r & Hr & _).
  exists r. split; [done|]. unfold fallback_body.
  cbn [py_lower mbind outcome_bind]. unfold has_ratio in Hr. rewrite Hr.
  cbn [mbind outcome_bind]. by destruct (Qle_bool threshold r).
Qed.

Lemma fallback_body_other p item_name threshold :
  (∀ s, p ≠ PStr s) →
  fallback_body p item_name threshold = Raise AttributeError.
Proof. intros Hp. destruct p as [| |s]; [done..|]. by destruct (Hp s). Qed.

(** The fallback loop returns the first entry that clears the
    threshold, or no match. *)
Lemma fallback_spec past item_name threshold :
  (∃ p, fallback past item_name threshold = Ok (Match p) ∧
        first_where (qualifies item_name threshold) past p) ∨
  (fallback past item_name threshold = Ok NoMatch ∧
   ∀ p, p ∈ past → ¬ qualifies item_name threshold p).
Proof.
  induction past as [|p past IH].
  { right. split; [done|]. by intros p ?%elem_of_nil. }
  cbn [fallback].
  assert ((fallback_body p item_name threshold = Ok (Some (Match p)) ∧
           qualifies item_name threshold p) ∨
          (try_except (fallback_body p item_name threshold) (Ok None)
             = Ok None ∧ ¬ qualifies item_name threshold p))
    as [[-> Hq]|[-> Hnq]].
  { destruct p as [|z|s].
    1,2: right; split; [done|]; by intros (s & r & ? & _).
    destruct (fallback_body_str s item_name threshold) as (r & Hr & ->).
    destruct (Qle_bool threshold r) eqn:Hle.
    - left. split; [done|]. apply qualifies_iff. exists r.
      split; [done|]. by apply Qle_bool_iff.
    - right. split; [done|]. intros (r' & Hr' & Hle')%qualifies_iff.
      rewrite (has_ratio_fun _ _ _ _ Hr' Hr) in Hle'.
      apply Qle_bool_iff in Hle'. congruence. }
  - left. exists p. split; [done|]. by apply first_where_here.
  - cbn [mbind outcome_bind].
    destruct IH as [(p' & -> & Hfirst)|[-> Hnone]].
    + left. exists p'. split; [done|]. by apply first_where_later.
    + right. split; [done|]. intros p' [->|Hp']%elem_of_cons; auto.
Qed.

(** The matcher on a history that is not empty. *)
Lemma check_purchase_history_stages rows item_name threshold :
  rows ≠ [] →
  check_purchase_history rows item_name threshold =
    match try_except
            (quick_match (past_items_of rows) item_name threshold)
            (Ok None) with
    | Ok (Some v) => Ok v
    | Ok None => fallback (past_items_of rows) item_name threshold
    | Raise e => Raise e
    | OutOfFuel => OutOfFuel
    end.
Proof.
  intros Hrows. unfold check_purchase_history. fold (past_items_of rows).
  destruct rows as [|r0 rows]; [done|]. cbn [past_items_of fmap list_fmap].
  by destruct (try_except _ _) as [[v|]| |].
Qed.

End stages.

(** ** The matcher as a whole *)

Section matcher.
Local Open Scope Q_scope.

(** A result of the first stage is a match with an entry of the
    history that clears the threshold. *)
Lemma quick_match_Some past item_name threshold v :
  quick_match past item_name threshold = Ok (Some v) →
  ∃ ss o, past = PStr <$> ss ∧ v = Match (PStr o) ∧
          0 <= threshold ∧ threshold <= 1 ∧
          stage1_choice item_name threshold ss o.
Proof.
  intros Hq.
  destruct (quick_match_cases past item_name threshold)
    as [(e & He & _)|(ss & -> & H0 & H1 & [[Hn _]|(o & Ho & Hc)])];
    [congruence|congruence|].
  exists ss, o. rewrite Hq in Ho. by simplify_eq.
Qed.

Lemma stage1_choice_qualifies item_name threshold ss o :
  stage1_choice item_name threshold ss o →
  o ∈ ss ∧ qualifies item_name threshold (PStr o).
Proof.
  intros [Hfirst (r & Hr & Hle & _)].
  split; [by apply first_where_elem in Hfirst as [? _]|].
  apply qualifies_iff. eauto.
Qed.

(** The rule of the first stage leaves no choice. *)
Lemma stage1_choice_unique item_name threshold ss o o' :
  stage1_choice item_name threshold ss o →
  stage1_choice item_name threshold ss o' → o' = o.
Proof.
  intros Hc Hc'.
  pose proof (stage1_choice_qualifies _ _ _ _ Hc) as [Hin _].
  pose proof (stage1_choice_qualifies _ _ _ _ Hc') as [Hin' _].
  destruct Hc as [Hfirst (r & Hr & Hle & Hmax)].
  destruct Hc' as [Hfirst' (r' & Hr' & Hle' & Hmax')].
  destruct (tuple_ge_antisym _ _ (Hmax o' r' Hin' Hr' Hle')
              (Hmax' o r Hin Hr Hle)) as [_ Hlow].
  simpl in Hlow. rewrite <- Hlow in Hfirst'.
  by eapply first_where_unique.
Qed.

Lemma past_items_nonempty rows : rows ≠ [] → past_items_of rows ≠ [].
Proof. by destruct rows. Qed.

(** The two ways in which the matcher answers for a history that is
    not empty: with the choice of the first stage, or, when that stage
    raised or found nothing, with the answer of the fallback loop. *)
Lemma check_purchase_history_cases rows item_name threshold :
  rows ≠ [] →
  (∃ ss o, past_items_of rows = PStr <$> ss ∧
     0 <= threshold ∧ threshold <= 1 ∧
     stage1_choice item_name threshold ss o ∧
     check_purchase_history rows item_name threshold = Ok (Match (PStr o))) ∨
  ((∀ v, quick_match (past_items_of rows) item_name threshold ≠ Ok (Some v)) ∧
   check_purchase_history rows item_name threshold =
     fallback (past_items_of rows) item_name threshold).
Proof.
  intros Hrows. rewrite check_purchase_history_stages by done.
  destruct (quick_match_cases (past_items_of rows) item_name threshold)
    as [(e & -> & _)|(ss & Hss & H0 & H1 & [[-> _]|(o & -> & Hc)])].
  - right. by split.
  - right. by split.
  - left. exists ss, o. by split_and!.
Qed.

(** The fallback loop alone already gives a verdict. *)
Lemma fallback_returns past item_name threshold :
  ∃ v, fallback past item_name threshold = Ok v.
Proof.
  destruct (fallback_spec past item_name threshold)
    as [(p & -> & _)|[-> _]]; eauto.
Qed.

Lemma first_qualifies_str item_name threshold past p :
  first_where (qualifies item_name threshold) past p →
  ∃ s, p = PStr s ∧ PStr s ∈ past.
Proof.
  intros [Hin (s & r & -> & _)]%first_where_elem. eauto.
Qed.

(** Whenever some entry clears the threshold, the verdict is a match
    with an entry of the history. *)
Lemma match_when_qualifies rows item_name threshold p :
  p ∈ past_items_of rows → qualifies item_name threshold p →
  ∃ o, check_purchase_history rows item_name threshold = Ok (Match (PStr o)) ∧
       PStr o ∈ past_items_of rows.
Proof.
  intros Hp Hq.
  assert (rows ≠ []) as Hrows by (intros ->; by apply elem_of_nil in Hp).
  destruct (check_purchase_history_cases rows item_name threshold Hrows)
    as [(ss & o & Hss & _ & _ & Hc & ->)|[_ ->]].
  - exists o. split; [done|]. rewrite Hss. apply list_elem_of_fmap.
    exists o. split; [done|]. by apply stage1_choice_qualifies in Hc as [? _].
  - destruct (fallback_spec (past_items_of rows) item_name threshold)
      as [(p' & -> & Hfirst)|[_ Hnone]]; [|by destruct (Hnone p)].
    apply first_qualifies_str in Hfirst as (o & -> & Ho). eauto.
Qed.

(** A match always names an entry that clears the threshold. *)
Lemma match_inv rows item_name threshold o :
  check_purchase_history rows item_name threshold = Ok (Match o) →
  o ∈ past_items_of rows ∧ qualifies item_name threshold o.
Proof.
  intros Hm. destruct rows as [|r0 rows]; [done|].
  destruct (check_purchase_history_cases (r0 :: rows) item_name threshold)
    as [(ss & o' & Hss & _ & _ & Hc & Ho')|[_ Hf]]; [done| |].
  - rewrite Hm in Ho'. injection Ho' as ->.
    apply stage1_choice_qualifies in Hc as [Hin Hq]. split; [|done].
    rewrite Hss. apply list_elem_of_fmap. eauto.
  - rewrite Hf in Hm.
    destruct (fallback_spec (past_items_of (r0 :: rows)) item_name threshold)
      as [(p' & Hp' & Hfirst)|[Hnm _]]; [|congruence].
    rewrite Hm in Hp'. injection Hp' as <-.
    by apply first_where_elem in Hfirst.
Qed.

Lemma pstr_list_inj (ss ss' : list string) :
  PStr <$> ss = PStr <$> ss' → ss = ss'.
Proof.
  revert ss'. induction ss as [|s ss IH]; intros [|s' ss'] Heq;
    simplify_eq/=; [done|]. f_equal. by apply IH.
Qed.

(** On a history of strings and a threshold in [0, 1], the first stage
    finds its choice as soon as some entry clears the threshold. *)
Lemma stage1_selects_of_strings rows ss item_name threshold :
  past_items_of rows = PStr <$> ss →
  0 <= threshold → threshold <= 1 →
  (∃ s, s ∈ ss ∧ qualifies item_name threshold (PStr s)) →
  ∃ o, quick_match (past_items_of rows) item_name threshold
         = Ok (Some (Match (PStr o))) ∧
       check_purchase_history rows item_name threshold
         = Ok (Match (PStr o)) ∧
       stage1_choice item_name threshold ss o.
Proof.
  intros Hss H0 H1 (s & Hs & Hq).
  assert (rows ≠ []) as Hrows.
  { intros ->. destruct ss; [by apply elem_of_nil in Hs|done]. }
  destruct (quick_match_cases (past_items_of rows) item_name threshold)
    as [(e & _ & [(p & Hp & Hns)|Hout])
       |(ss' & Hss' & _ & _ & [[_ Hnone]|(o & Ho & Hc)])].
  - rewrite Hss in Hp. apply list_elem_of_fmap in Hp as (s' & -> & _).
    by destruct (Hns s').
  - by destruct Hout.
  - destruct (Hnone (PStr s)); [|done]. rewrite Hss.
    apply list_elem_of_fmap. eauto.
  - assert (ss' = ss) as ->.
    { rewrite Hss in Hss'. by apply pstr_list_inj in Hss'. }
    exists o. split_and!; [done| |done].
    rewrite check_purchase_history_stages by done. by rewrite Ho.
Qed.

End matcher.

(** * The claims of the specification *)

Section claims.
Local Open Scope Q_scope.

(** On a history that is not empty the verdict is a match or no
    match. *)
Lemma verdict_of_history rows item_name threshold :
  rows ≠ [] →
  (∃ o, check_purchase_history rows item_name threshold = Ok (Match o)) ∨
  check_purchase_history rows item_name threshold = Ok NoMatch.
Proof.
  intros Hrows.
  destruct (check_purchase_history_cases rows item_name threshold Hrows)
    as [(ss & o & _ & _ & _ & _ & ->)|[_ ->]]; [eauto|].
  destruct (fallback_spec (past_items_of rows) item_name threshold)
    as [(p & -> & _)|[-> _]]; eauto.
Qed.

(** An entry that is empty when the candidate is not, or the other way
    round, clears no positive threshold. *)
Lemma one_side_empty_fails item_name threshold s :
  0 < threshold →
  (s = EmptyString ∧ item_name ≠ EmptyString) ∨
  (s ≠ EmptyString ∧ item_name = EmptyString) →
  ¬ qualifies item_name threshold (PStr s).
Proof.
  intros Hpos Hside (r & Hr & Hle)%qualifies_iff.
  apply has_ratio_empty in Hr; [lra|].
  rewrite !lower_empty. done.
Qed.

End claims.

(** C1, as amended.  [check_purchase_history] returns a verdict for
    every history, candidate and threshold: no exception leaves it, and
    the model never runs out of fuel.  For a threshold above [0], a
    history in which every string entry is empty while the candidate is
    not, or is not empty while the candidate is empty (entries that are
    no strings being skipped), gets the verdict "no match".  An empty or
    blank candidate is compared like any other text, so it can match an
    entry that is empty or blank too. *)
Theorem check_purchase_history_total
    (rows : list pyval) (item_name : string) (threshold : Q) :
  (∃ v, check_purchase_history rows item_name threshold = Ok v) ∧
  (rows ≠ [] → (0 < threshold)%Q →
   (∀ s, PStr s ∈ past_items_of rows →
      (s = EmptyString ∧ item_name ≠ EmptyString) ∨
      (s ≠ EmptyString ∧ item_name = EmptyString)) →
   check_purchase_history rows item_name threshold = Ok NoMatch).
Proof.
  split.
  - destruct rows as [|r0 rows]; [by exists NoHistory|].
    destruct (verdict_of_history (r0 :: rows) item_name threshold)
      as [[o ->]| ->]; eauto.
  - intros Hrows Hpos Hside.
    destruct (verdict_of_history rows item_name threshold Hrows)
      as [[o Ho]|Hno]; [|done].
    apply match_inv in Ho as [Hin Hq]. pose proof Hq as (s & r & -> & _).
    by destruct (one_side_empty_fails item_name threshold s Hpos (Hside s Hin)).
Qed.

(** C1, witness: an empty candidate against a history with a text and a
    number. *)
Lemma check_purchase_history_total_witness :
  (∃ v, check_purchase_history [PStr "Desk Lamp"; PInt 7] "" (6 # 10) = Ok v) ∧
  check_purchase_history [PStr "Desk Lamp"; PInt 7] "" (6 # 10) = Ok NoMatch.
Proof.
  destruct (check_purchase_history_total [PStr "Desk Lamp"; PInt 7] ""
              (6 # 10)) as [Hv Hno].
  split; [exact Hv|]. apply Hno; [done|reflexivity|].
  intros s Hs. right. split; [|reflexivity].
  apply elem_of_cons in Hs as [[= ->]|Hs]; [done|].
  apply elem_of_cons in Hs as [[=]|Hs]. by apply elem_of_nil in Hs.
Defined.

(** C1, counterexample to the claim as stated: with the empty candidate
    and a history whose entry is empty the ratio is [1.0], and the
    verdict is a match with the empty text; a candidate of two blanks
    matches the entry ["  a"] with ratio [0.8]. *)
Lemma blank_candidate_can_match :
  check_purchase_history [PStr ""] "" (6 # 10) = Ok (Match (PStr "")) ∧
  check_purchase_history [PStr "  a"] "  " (6 # 10) = Ok (Match (PStr "  a")).
Proof. split; vm_compute; reflexivity. Qed.

(** C2, as amended.  For a history of strings (after [None] and other
    false values became [""]), a threshold in [0, 1] and an entry that
    clears it, the first stage picks the entry [o] described by
    [stage1_choice]: [o] has the highest ratio among the entries that
    clear the threshold; among those of equal ratio its lowered text is
    the greatest in the order of strings; [o] is the first entry of the
    history with that lowered text; and the matcher returns a match with
    [o] as it stands in the history.  No other entry fits this rule. *)
Theorem stage1_selects
    (rows : list pyval) (ss : list string) (item_name : string)
    (threshold : Q) :
  past_items_of rows = PStr <$> ss →
  (0 <= threshold)%Q → (threshold <= 1)%Q →
  (∃ s, s ∈ ss ∧ qualifies item_name threshold (PStr s)) →
  ∃ o, quick_match (past_items_of rows) item_name threshold
         = Ok (Some (Match (PStr o))) ∧
       check_purchase_history rows item_name threshold = Ok (Match (PStr o)) ∧
       stage1_choice item_name threshold ss o ∧
       ∀ o', stage1_choice item_name threshold ss o' → o' = o.
Proof.
  intros Hss H0 H1 Hq.
  destruct (stage1_selects_of_strings rows ss item_name threshold Hss H0 H1 Hq)
    as (o & Hquick & Hcheck & Hchoice).
  exists o. split_and!; [done..|].
  intros o' Hchoice'. by eapply stage1_choice_unique.
Qed.

(** C2, witness: two entries clear the threshold; the one with the
    higher ratio is picked. *)
Lemma stage1_selects_witness :
  ∃ o, quick_match (past_items_of [PStr "Red Shoe"; PStr "Red Shoes"])
         "red shoes!" (6 # 10) = Ok (Some (Match (PStr o))) ∧
       check_purchase_history [PStr "Red Shoe"; PStr "Red Shoes"]
         "red shoes!" (6 # 10) = Ok (Match (PStr o)) ∧
       stage1_choice "red shoes!" (6 # 10) ["Red Shoe"; "Red Shoes"]%string o ∧
       ∀ o', stage1_choice "red shoes!" (6 # 10)
               ["Red Shoe"; "Red Shoes"]%string o' → o' = o.
Proof.
  apply (stage1_selects [PStr "Red Shoe"; PStr "Red Shoes"]
           ["Red Shoe"; "Red Shoes"]%string "red shoes!" (6 # 10)).
  - reflexivity.
  - discriminate.
  - discriminate.
  - exists "Red Shoes"%string. split; [right; left|].
    eexists _, _. split; [reflexivity|]. split; [vm_compute; reflexivity|].
    discriminate.
Defined.

(** C2, counterexample to the claim as stated: ["ab"] and ["ac"] both
    have ratio [2/3] to ["a"].  The first of them in the history is
    ["ab"], which is what the specification's rule picks; the matcher
    reports ["ac"], the greater text.  And with the threshold [-1] the
    rule picks ["a"], of ratio [1.0], from the history ["b", "a"], while
    the matcher reports the first entry ["b"]: the first stage raised. *)
Lemma tie_goes_to_greater_text :
  (ratio_of "ab" "a" = ratio_of "ac" "a" ∧
   spec_stage1 ["ab"; "ac"]%string "a" (6 # 10) = Some "ab"%string ∧
   check_purchase_history [PStr "ab"; PStr "ac"] "a" (6 # 10)
     = Ok (Match (PStr "ac"))) ∧
  (spec_stage1 ["b"; "a"]%string "a" (-1) = Some "a"%string ∧
   check_purchase_history [PStr "b"; PStr "a"] "a" (-1)
     = Ok (Match (PStr "b"))).
Proof. split; split_and!; vm_compute; reflexivity. Qed.

(** C3.  On a history that is not empty: when the first stage returns a
    verdict, that verdict is the matcher's; when it returns none (it
    raised, or found no close match), the matcher goes through the
    history in its order and returns a match with the first entry whose
    ratio to the candidate, both lowered, is at least the threshold, and
    no match when there is no such entry. *)
Theorem stage_precedence
    (rows : list pyval) (item_name : string) (threshold : Q) :
  rows ≠ [] →
  (∀ v, quick_match (past_items_of rows) item_name threshold = Ok (Some v) →
        check_purchase_history rows item_name threshold = Ok v) ∧
  ((∀ v, quick_match (past_items_of rows) item_name threshold ≠ Ok (Some v)) →
   (∃ p, check_purchase_history rows item_name threshold = Ok (Match p) ∧
         first_where (qualifies item_name threshold) (past_items_of rows) p) ∨
   (check_purchase_history rows item_name threshold = Ok NoMatch ∧
    ∀ p, p ∈ past_items_of rows → ¬ qualifies item_name threshold p)).
Proof.
  intros Hrows. rewrite check_purchase_history_stages by done. split.
  - by intros v ->.
  - intros Hnone.
    destruct (quick_match_cases (past_items_of rows) item_name threshold)
      as [(e & -> & _)|(ss & _ & _ & _ & [[-> _]|(o & Ho & _)])];
      [| |by destruct (Hnone _ Ho)]; apply fallback_spec.
Qed.

(** C3, witness: the first stage picks ["abc"], of ratio [1.0], although
    the fallback loop alone would stop at the earlier entry ["abd"]. *)
Lemma stage_precedence_witness :
  check_purchase_history [PStr "abd"; PStr "abc"] "abc" (6 # 10)
    = Ok (Match (PStr "abc")) ∧
  fallback (past_items_of [PStr "abd"; PStr "abc"]) "abc" (6 # 10)
    = Ok (Match (PStr "abd")).
Proof.
  split; [|vm_compute; reflexivity].
  apply (stage_precedence [PStr "abd"; PStr "abc"] "abc" (6 # 10)); [done|].
  vm_compute. reflexivity.
Defined.

(** C4.  An empty history gives the verdict "no history", whatever the
    candidate and the threshold. *)
Theorem empty_history_no_history (item_name : string) (threshold : Q) :
  check_purchase_history [] item_name threshold = Ok NoHistory.
Proof. reflexivity. Qed.




(** C6.  Lowering the threshold keeps a match: when the matcher returns
    a match for the threshold [t1] and [t2 < t1], it returns a match for
    [t2] too (not always with the same entry). *)
Theorem threshold_monotone
    (rows : list pyval) (item_name : string) (t1 t2 : Q) (o : pyval) :
  (t2 < t1)%Q →
  check_purchase_history rows item_name t1 = Ok (Match o) →
  ∃ o', check_purchase_history rows item_name t2 = Ok (Match o').
Proof.
  intros Hlt [Hin (s & r & -> & Hr & Hle)]%match_inv.
  destruct (match_when_qualifies rows item_name t2 (PStr s) Hin)
    as (o' & Ho' & _); [|eauto].
  apply qualifies_iff. exists r. split; [done|]. lra.
Qed.

(** C6, witness: from the threshold [0.9] down to [-1], where the match
    moves from ["abc"] to the first entry. *)
Lemma threshold_monotone_witness :
  ∃ o', check_purchase_history [PStr "abd"; PStr "abc"] "abc" (-1) = Ok (Match o').
Proof.
  apply (threshold_monotone [PStr "abd"; PStr "abc"] "abc" (9 # 10) (-1)
           (PStr "abc")).
  - reflexivity.
  - vm_compute. reflexivity.
Defined.

(** C7.  A ratio equal to the threshold counts: an entry whose ratio to
    the candidate equals the threshold makes the matcher return a match.
    The two examples show the comparison at work in either stage: for
    the history ["ab"] and the candidate ["a"] the ratio is [2/3], and
    with the threshold [2/3] the first stage reports the match; with the
    number [5] put before ["ab"] the first stage raises and the fallback
    loop reports it. *)
Theorem threshold_is_inclusive :
  (∀ rows item_name threshold s r,
     PStr s ∈ past_items_of rows →
     has_ratio (lower s) (lower item_name) r → (r == threshold)%Q →
     ∃ o, check_purchase_history rows item_name threshold = Ok (Match (PStr o))) ∧
  (has_ratio (lower "ab") (lower "a") (2 # 3) ∧
   quick_match (past_items_of [PStr "ab"]) "a" (2 # 3)
     = Ok (Some (Match (PStr "ab"))) ∧
   check_purchase_history [PStr "ab"] "a" (2 # 3) = Ok (Match (PStr "ab"))) ∧
  (quick_match (past_items_of [PInt 5; PStr "ab"]) "a" (2 # 3)
     = Raise AttributeError ∧
   fallback_body (PStr "ab") "a" (2 # 3) = Ok (Some (Match (PStr "ab"))) ∧
   check_purchase_history [PInt 5; PStr "ab"] "a" (2 # 3)
     = Ok (Match (PStr "ab"))).
Proof.
  split; [|split; split_and!; vm_compute; reflexivity].
  intros rows item_name threshold s r Hin Hr Heq.
  destruct (match_when_qualifies rows item_name threshold (PStr s) Hin)
    as (o & Ho & _); [|eauto].
  apply qualifies_iff. exists r. split; [done|]. lra.
Qed.

(** C7, witness: the general part at the history ["ab"]. *)
Lemma threshold_is_inclusive_witness :
  ∃ o, check_purchase_history [PStr "ab"] "a" (2 # 3) = Ok (Match (PStr o)).
Proof.
  destruct threshold_is_inclusive as [Hall _].
  apply (Hall [PStr "ab"] "a"%string (2 # 3) "ab"%string (2 # 3)).
  - left.
  - vm_compute. reflexivity.
  - reflexivity.
Defined.

(** C8.  Scenario 4 of the specification: the history
    ["iPhone 13 Case", "Desk Lamp"], the candidate ["iPhone 13 Cover"]
    and the threshold [0.6] give a match with ["iPhone 13 Case"], whose
    ratio [24/29] clears the threshold, while the ratio [4/24] of
    ["Desk Lamp"] does not. *)
Theorem scenario_iphone_case :
  check_purchase_history [PStr "iPhone 13 Case"; PStr "Desk Lamp"]
    "iPhone 13 Cover" (6 # 10) = Ok (Match (PStr "iPhone 13 Case")) ∧
  has_ratio (lower "iPhone 13 Case") (lower "iPhone 13 Cover") (24 # 29) ∧
  Qle_bool (6 # 10) (24 # 29) = true ∧
  has_ratio (lower "Desk Lamp") (lower "iPhone 13 Cover") (4 # 24) ∧
  Qle_bool (6 # 10) (4 # 24) = false.
Proof. split_and!; vm_compute; reflexivity. Qed.

(** C9.  The text of a match is an entry of the history as it stands
    there: a string that is an element of the rows, or the empty string
    that stands for a row whose value is false ([None], [0], ['']).  It
    is never a lowered or otherwise changed text. *)
Theorem matched_text_from_history
    (rows : list pyval) (item_name : string) (threshold : Q) (o : pyval) :
  check_purchase_history rows item_name threshold = Ok (Match o) →
  o ∈ past_items_of rows ∧ (∃ s, o = PStr s) ∧
  (o ∈ rows ∨ (o = PStr "" ∧ ∃ r0, r0 ∈ rows ∧ truthy r0 = false)).
Proof.
  intros [Hin (s & r & -> & _)]%match_inv. split_and!; [done|eauto|].
  unfold past_items_of in Hin. apply list_elem_of_fmap in Hin as (r0 & Hr0 & Hin).
  unfold py_or in Hr0. destruct (truthy r0) eqn:Ht.
  - left. by rewrite Hr0.
  - right. split; [done|eauto].
Qed.

(** C9, witness: scenario 4 of the specification. *)
Lemma matched_text_from_history_witness :
  PStr "iPhone 13 Case" ∈ past_items_of [PStr "iPhone 13 Case"; PStr "Desk Lamp"].
Proof.
  apply (matched_text_from_history [PStr "iPhone 13 Case"; PStr "Desk Lamp"]
           "iPhone 13 Cover" (6 # 10) (PStr "iPhone 13 Case")).
  vm_compute. reflexivity.
Defined.

(** C10.  With a threshold outside [0, 1] and a history that is not
    empty, the first stage raises (the refusal of the cutoff by
    [get_close_matches], or the [lower] of an entry that is no string),
    the exception is caught and the verdict is that of the fallback
    loop: no match for a threshold above [1], and a match with the first
    entry of the history, a string, for a threshold below [0].  (In a
    history that also holds values that are no strings, the loop skips
    them: the match is with the first entry that is a string.) *)
Theorem threshold_out_of_range
    (rows : list pyval) (item_name : string) (threshold : Q) :
  rows ≠ [] → ¬ (0 <= threshold ∧ threshold <= 1)%Q →
  (∃ e, quick_match (past_items_of rows) item_name threshold = Raise e) ∧
  check_purchase_history rows item_name threshold
    = fallback (past_items_of rows) item_name threshold ∧
  ((1 < threshold)%Q →
   check_purchase_history rows item_name threshold = Ok NoMatch) ∧
  ((threshold < 0)%Q →
   (∀ s rest, past_items_of rows = PStr s :: rest →
      check_purchase_history rows item_name threshold = Ok (Match (PStr s))) ∧
   (∀ p, first_where (λ p, ∃ s, p = PStr s) (past_items_of rows) p →
      check_purchase_history rows item_name threshold = Ok (Match p))).
Proof.
  intros Hrows Hout.
  assert (∃ e, quick_match (past_items_of rows) item_name threshold = Raise e)
    as [e He].
  { destruct (quick_match_cases (past_items_of rows) item_name threshold)
      as [(e & He & _)|(ss & _ & H0 & H1 & _)]; [eauto|by destruct Hout]. }
  assert (check_purchase_history rows item_name threshold
          = fallback (past_items_of rows) item_name threshold) as Hcheck.
  { rewrite check_purchase_history_stages by done. by rewrite He. }
  split_and!; [eauto|done| |].
  - intros Hbig. rewrite Hcheck.
    destruct (fallback_spec (past_items_of rows) item_name threshold)
      as [(p & _ & Hfirst)|[-> _]]; [|done].
    apply first_where_elem in Hfirst as [_ (s & r & -> & Hr & Hle)].
    apply has_ratio_bounds in Hr. lra.
  - intros Hneg.
    assert (∀ p, first_where (λ p, ∃ s, p = PStr s) (past_items_of rows) p →
              check_purchase_history rows item_name threshold = Ok (Match p))
      as Hfirst.
    { intros p Hp. rewrite Hcheck.
      apply (first_where_iff _ (qualifies item_name threshold)) in Hp.
      - destruct (fallback_spec (past_items_of rows) item_name threshold)
          as [(p' & -> & Hp')|[_ Hnone]].
        + by rewrite (first_where_unique _ _ _ _ Hp Hp').
        + apply first_where_elem in Hp as [Hin Hq]. by destruct (Hnone p).
      - intros q. split; [|by intros (s & r & -> & _); eauto].
        intros [s ->]. apply qualifies_iff.
        destruct (has_ratio_ex (lower s) (lower item_name))
          as (r & Hr & Hr0 & _).
        exists r. split; [done|]. lra. }
    split; [|done]. intros s rest Hpast. apply Hfirst. rewrite Hpast.
    apply first_where_here. eauto.
Qed.

(** C10, witness: the threshold [-1] on the history of scenario 4. *)
Lemma threshold_out_of_range_witness :
  check_purchase_history [PStr "Desk Lamp"; PStr "iPhone 13 Case"]
    "iPhone 13 Cover" (-1) = Ok (Match (PStr "Desk Lamp")).
Proof.
  destruct (threshold_out_of_range [PStr "Desk Lamp"; PStr "iPhone 13 Case"]
              "iPhone 13 Cover" (-1)) as (_ & _ & _ & Hneg).
  - done.
  - intros [H0 _]. by vm_compute in H0.
  - destruct (Hneg eq_refl) as [Hhead _].
    by apply (Hhead "Desk Lamp"%string [PStr "iPhone 13 Case"]).
Defined.

(** * The rest of src/app.py *)

(** ** Statements on a table *)

Section tables.
Context {R : Type}.
Implicit Types (t : list R) (r : R).

Lemma head_filter_None (P : R → Prop) `{!∀ r, Decision (P r)} t :
  head (filter P t) = None ↔ ∀ r, r ∈ t → ¬ P r.
Proof.
  rewrite head_None. split.
  - intros Hnil r Hr HP.
    assert (r ∈ filter P t) as Hin by by apply list_elem_of_filter.
    rewrite Hnil in Hin. by apply elem_of_nil in Hin.
  - intros Hnone. destruct (filter P t) as [|r l] eqn:Heq; [done|].
    assert (r ∈ filter P t) as Hin by (rewrite Heq; left).
    apply list_elem_of_filter in Hin as [HP Hin]. by destruct (Hnone r).
Qed.

Lemma head_filter_elem (P : R → Prop) `{!∀ r, Decision (P r)} t r :
  head (filter P t) = Some r → P r ∧ r ∈ t.
Proof.
  intros Hhead. apply (proj1 (list_elem_of_filter P t r)).
  destruct (filter P t); simplify_eq/=. left.
Qed.

Lemma filter_all (P : R → Prop) `{!∀ r, Decision (P r)} t :
  (∀ r, r ∈ t → P r) → filter P t = t.
Proof.
  induction t as [|r t IH]; intros Hall; [done|].
  rewrite filter_cons_True by (apply Hall; left).
  f_equal. apply IH. intros r' Hr'. apply Hall. by right.
Qed.

Lemma filter_none (P : R → Prop) `{!∀ r, Decision (P r)} t :
  (∀ r, r ∈ t → ¬ P r) → filter P t = [].
Proof.
  induction t as [|r t IH]; intros Hall; [done|].
  rewrite filter_cons_False by (apply Hall; left).
  apply IH. intros r' Hr'. apply Hall. by right.
Qed.

Lemma filter_iff (P Q : R → Prop) `{!∀ r, Decision (P r)}
    `{!∀ r, Decision (Q r)} t :
  (∀ r, r ∈ t → P r ↔ Q r) → filter P t = filter Q t.
Proof.
  induction t as [|r t IH]; intros Hall; [done|].
  assert (filter P t = filter Q t) as IH'.
  { apply IH. intros r' Hr'. apply Hall. by right. }
  destruct (decide (P r)) as [HP|HP].
  - rewrite !filter_cons_True; [by f_equal|by apply Hall; [left|]|done].
  - rewrite !filter_cons_False; [done| |done].
    intros HQ. apply HP, Hall; [left|done].
Qed.

Lemma head_filter_fmap (P : R → Prop) `{!∀ r, Decision (P r)}
    (f : R → R) t :
  (∀ r, P (f r) ↔ P r) →
  head (filter P (f <$> t)) = f <$> head (filter P t).
Proof.
  intros Hf. induction t as [|r t IH]; [done|].
  rewrite fmap_cons. destruct (decide (P r)) as [HP|HP].
  - rewrite !filter_cons_True; [done|done|by apply Hf].
  - rewrite !filter_cons_False; [done|done|by rewrite Hf].
Qed.

Lemma existsb_elem (f : R → bool) t :
  existsb f t = true ↔ ∃ r, r ∈ t ∧ f r = true.
Proof.
  rewrite existsb_exists. split; intros (r & Hr & Hf); exists r.
  - by rewrite list_elem_of_In.
  - by rewrite <- list_elem_of_In.
Qed.

Lemma existsb_none (f : R → bool) t :
  existsb f t = false ↔ ∀ r, r ∈ t → f r = false.
Proof.
  rewrite <- not_true_iff_false, existsb_elem. split.
  - intros Hno r Hr. apply not_true_iff_false. intros Hf. apply Hno. eauto.
  - intros Hall (r & Hr & Hf). apply Hall in Hr. congruence.
Qed.

Lemma head_filter_snoc (P : R → Prop) `{!∀ r, Decision (P r)} t r :
  head (filter P (t ++ [r]))
  = match head (filter P t) with
    | Some r' => Some r'
    | None => if decide (P r) then Some r else None
    end.
Proof.
  rewrite filter_app. destruct (filter P t) as [|r' l]; [|done].
  rewrite app_nil_l. destruct (decide (P r)).
  - by rewrite filter_cons_True.
  - by rewrite filter_cons_False.
Qed.

End tables.

(** The fields of a database that a change of one table leaves. *)
Lemma with_posts_same db : with_posts db (posts db) = db.
Proof. by destruct db. Qed.

(** ** Badges *)

Lemma badge_loop_snoc t badges thr name earned :
  badge_loop t (badges ++ [(thr, name)]) earned
  = if Qle_bool thr t then Some name else badge_loop t badges earned.
Proof. unfold badge_loop. by rewrite foldl_app. Qed.

(** X1.  The loop of [badge_for], over any table of badges: the badge is
    the name of the last entry of the table whose threshold the total
    reaches, and there is no badge exactly when the total reaches no
    threshold of the table. *)
Theorem badge_loop_last (t : Q) (badges : list (Q * string)) :
  (∀ name, badge_loop t badges None = Some name ↔
     ∃ before thr after, badges = before ++ (thr, name) :: after ∧
       (thr <= t)%Q ∧ ∀ b, b ∈ after → (t < b.1)%Q) ∧
  (badge_loop t badges None = None ↔ ∀ b, b ∈ badges → (t < b.1)%Q).
Proof.
  induction badges as [|[thr name] badges IH] using rev_ind.
  - split.
    + intros name. split; [done|]. intros (before & ? & ? & H & _).
      by destruct before.
    + split; [|done]. intros _ b Hb. by apply elem_of_nil in Hb.
  - destruct IH as [IHsome IHnone]. rewrite badge_loop_snoc.
    destruct (Qle_bool thr t) eqn:Hle.
    + apply Qle_bool_iff in Hle. split.
      * intros name'. split.
        -- intros [= <-]. exists badges, thr, []. split_and!; [done..|].
           intros b Hb. by apply elem_of_nil in Hb.
        -- intros (before & thr' & after & Heq & Hle' & Hafter).
           destruct after as [|b after _] using rev_ind.
           ++ apply app_inj_tail in Heq as [_ Heq]. congruence.
           ++ rewrite app_comm_cons, app_assoc in Heq.
              apply app_inj_tail in Heq as [_ <-].
              assert (t < (thr, name).1)%Q as Hlt.
              { apply Hafter. apply elem_of_app. right. left. }
              simpl in Hlt. lra.
      * split; [done|]. intros Hall.
        assert (t < (thr, name).1)%Q as Hlt.
        { apply Hall. apply elem_of_app. right. left. }
        simpl in Hlt. lra.
    + assert (t < thr)%Q as Hlt.
      { destruct (Qlt_le_dec t thr) as [|Hge]; [done|].
        apply Qle_bool_iff in Hge. congruence. }
      split.
      * intros name'. rewrite IHsome. split.
        -- intros (before & thr' & after & -> & Hle' & Hafter).
           exists before, thr', (after ++ [(thr, name)]).
           split_and!; [by rewrite <- app_assoc|done|].
           intros b [Hb|Hb%list_elem_of_singleton]%elem_of_app; [eauto|].
           by subst b.
        -- intros (before & thr' & after & Heq & Hle' & Hafter).
           destruct after as [|b after _] using rev_ind.
           ++ apply app_inj_tail in Heq as [_ Heq]. simplify_eq. lra.
           ++ rewrite app_comm_cons, app_assoc in Heq.
              apply app_inj_tail in Heq as [-> <-].
              exists before, thr', after. split_and!; [done..|].
              intros b' Hb'. apply Hafter. apply elem_of_app. by left.
      * rewrite IHnone. split.
        -- intros Hall b [Hb|Hb%list_elem_of_singleton]%elem_of_app; [eauto|].
           by subst b.
        -- intros Hall b Hb. apply Hall. apply elem_of_app. by left.
Qed.

(** X2.  The bands of [badge_for]: no badge below 1000, then Impulse
    Rookie, Mindful Saver from 5000, Budget Pro from 20000 and Frugal
    Master from 50000, each threshold included. *)
Theorem badge_for_bands (total_saved : Q) :
  ((total_saved < 1000)%Q → badge_for total_saved = None) ∧
  ((1000 <= total_saved < 5000)%Q →
     badge_for total_saved = Some "Impulse Rookie"%string) ∧
  ((5000 <= total_saved < 20000)%Q →
     badge_for total_saved = Some "Mindful Saver"%string) ∧
  ((20000 <= total_saved < 50000)%Q →
     badge_for total_saved = Some "Budget Pro"%string) ∧
  ((50000 <= total_saved)%Q →
     badge_for total_saved = Some "Frugal Master"%string).
Proof.
  unfold badge_for, badge_loop, BADGES. cbn [foldl].
  destruct (Qle_bool 1000 total_saved) eqn:H1;
    destruct (Qle_bool 5000 total_saved) eqn:H2;
    destruct (Qle_bool 20000 total_saved) eqn:H3;
    destruct (Qle_bool 50000 total_saved) eqn:H4;
    repeat match goal with
      | H : Qle_bool _ _ = true |- _ => apply Qle_bool_iff in H
      | H : Qle_bool ?a ?b = false |- _ =>
          assert (b < a)%Q by
            (destruct (Qlt_le_dec b a) as [|Hge]; [done|];
             apply Qle_bool_iff in Hge; congruence);
          clear H
      end;
    split_and!; intros; first [done|lra].
Qed.

(** ** Savings *)

Lemma savings_conflict_iff (r r' : savings_row) :
  savings_conflict r r' = true ↔ sav_user_id r' = sav_user_id r.
Proof. unfold savings_conflict. rewrite bool_decide_eq_true. naive_solver. Qed.

Lemma savings_conflict_false (r r' : savings_row) :
  savings_conflict r r' = false ↔ sav_user_id r' ≠ sav_user_id r.
Proof. unfold savings_conflict. rewrite bool_decide_eq_false. naive_solver. Qed.

(** The total that [get_savings] reads from a table of savings. *)
Lemma get_savings_with_savings db t user_id :
  get_savings (with_savings db t) user_id
  = match head (filter (λ s, sav_user_id s = user_id) t) with
    | Some r => sav_total_saved r
    | None => 0%Q
    end.
Proof. done. Qed.

(** [INSERT OR IGNORE] of a row of total 0 changes no total. *)
Lemma insert_or_ignore_get t user_id now v :
  match head (filter (λ s, sav_user_id s = v)
          (sql_insert_or_ignore savings_conflict (mk_saving user_id 0 now) t))
  with Some r => sav_total_saved r | None => 0%Q end
  = match head (filter (λ s, sav_user_id s = v) t) with
    | Some r => sav_total_saved r
    | None => 0%Q
    end.
Proof.
  unfold sql_insert_or_ignore. destruct (existsb _ t); [done|].
  rewrite head_filter_snoc. destruct (head _) as [r'|]; [done|].
  by case_decide.
Qed.

(** X3.  [ensure_savings_row] changes nobody's total: an existing row is
    kept as it is, and the row it adds holds the total 0 that
    [get_savings] reads for a user without a row. *)
Theorem ensure_savings_row_keeps_totals (db : database)
    (user_id now v : string) :
  get_savings (ensure_savings_row db user_id now) v = get_savings db v.
Proof.
  unfold ensure_savings_row. rewrite get_savings_with_savings.
  apply insert_or_ignore_get.
Qed.

Lemma insert_or_ignore_has t user_id now :
  ∃ s, s ∈ sql_insert_or_ignore savings_conflict (mk_saving user_id 0 now) t
       ∧ sav_user_id s = user_id.
Proof.
  unfold sql_insert_or_ignore. destruct (existsb _ t) eqn:Hex.
  - apply existsb_elem in Hex as (r & Hr & Hc).
    apply savings_conflict_iff in Hc. eauto.
  - exists (mk_saving user_id 0 now). split; [|done].
    apply elem_of_app. right. left.
Qed.

Lemma insert_or_ignore_subset t row s :
  s ∈ t → s ∈ sql_insert_or_ignore savings_conflict row t.
Proof.
  intros Hs. unfold sql_insert_or_ignore. destruct (existsb _ t); [done|].
  apply elem_of_app. by left.
Qed.

Lemma backfill_loop_spec us t now :
  let t' := foldl (λ t u,
              sql_insert_or_ignore savings_conflict
                (mk_saving (usr_id u) 0 now) t) t us in
  (∀ s, s ∈ t → s ∈ t') ∧
  (∀ u, u ∈ us → ∃ s, s ∈ t' ∧ sav_user_id s = usr_id u) ∧
  (∀ v, match head (filter (λ s, sav_user_id s = v) t') with
        | Some r => sav_total_saved r | None => 0%Q end
        = match head (filter (λ s, sav_user_id s = v) t) with
          | Some r => sav_total_saved r | None => 0%Q end).
Proof.
  revert t. induction us as [|u us IH]; intros t; simpl.
  - split_and!; [done| |done]. intros u Hu. by apply elem_of_nil in Hu.
  - destruct (IH (sql_insert_or_ignore savings_conflict
                    (mk_saving (usr_id u) 0 now) t)) as (Hsub & Hcov & Htot).
    split_and!.
    + intros s Hs. by apply Hsub, insert_or_ignore_subset.
    + intros u' [->|Hu']%elem_of_cons; [|by apply Hcov].
      destruct (insert_or_ignore_has t (usr_id u) now) as (s & Hs & Heq).
      exists s. split; [by apply Hsub|done].
    + intros v. rewrite Htot. apply insert_or_ignore_get.
Qed.

(** X4.  After [backfill_savings_rows] every user has a row of savings,
    and nobody's total has changed. *)
Theorem backfill_savings_rows_covers (db : database) (now : string) :
  (∀ u, u ∈ users db →
     ∃ s, s ∈ savings (backfill_savings_rows db now)
          ∧ sav_user_id s = usr_id u) ∧
  (∀ v, get_savings (backfill_savings_rows db now) v = get_savings db v).
Proof.
  destruct (backfill_loop_spec (users db) (savings db) now)
    as (_ & Hcov & Htot).
  split; [apply Hcov|apply Htot].
Qed.


(** ** Decisions *)

Lemma head_posts_decided (posts : list posts_row) pid d now q :
  head (filter (λ p, post_id p = q)
     ((λ p, if decide (post_id p = pid) then decided d now p else p)
        <$> posts))
  = if decide (q = pid)
    then decided d now <$> head (filter (λ p, post_id p = q) posts)
    else head (filter (λ p, post_id p = q) posts).
Proof.
  rewrite (head_filter_fmap (λ p, post_id p = q)).
  - destruct (head _) as [p|] eqn:Hhead; [|by case_decide].
    apply head_filter_elem in Hhead as [<- _].
    simpl. by repeat case_decide.
  - intros p. by case_decide.
Qed.

(** The two effects of [decide_post], each on its table. *)
Lemma decide_post_effect float_add db pid d now now' :
  decide_post float_add db pid d now now'
  = let db' := with_posts db
        ((λ p, if decide (post_id p = pid) then decided d now p else p)
           <$> posts db) in
    match get_post db pid with
    | Some p =>
        if decide (d = "skipped"%string) then
          with_savings db'
            (sql_insert_or_replace savings_conflict
               (mk_saving (post_user_id p)
                  (float_add (get_savings db (post_user_id p)) (post_price p))
                  now')
               (savings db))
        else db'
    | None => db'
    end.
Proof.
  unfold decide_post, get_post. cbn [posts with_posts savings].
  set (f := λ p : posts_row, if decide (post_id p = pid) then _ else p).
  change f with
    (λ p, if decide (post_id p = pid) then decided d now p else p).
  rewrite (head_posts_decided (posts db) pid d now pid).
  rewrite decide_True by done.
  by destruct (head (filter _ (posts db))) as [p|].
Qed.

Lemma get_savings_decide_post float_add db pid d now now' u :
  get_savings (decide_post float_add db pid d now now') u
  = match get_post db pid with
    | Some p =>
        if decide (d = "skipped"%string ∧ post_user_id p = u)
        then float_add (get_savings db u) (post_price p)
        else get_savings db u
    | None => get_savings db u
    end.
Proof.
  rewrite decide_post_effect. cbn zeta.
  destruct (get_post db pid) as [p|]; [|done].
  destruct (decide (d = "skipped"%string)) as [->|Hd].
  - rewrite get_savings_with_savings. unfold sql_insert_or_replace.
    rewrite head_filter_snoc, list_filter_filter. cbn [sav_user_id].
    destruct (decide (post_user_id p = u)) as [<-|Hne].
    + rewrite filter_none.
      * by rewrite decide_True.
      * intros r _ [Heq Hc]. by apply savings_conflict_false in Hc.
    + rewrite decide_False by (by intros [_ ?]).
      rewrite (filter_iff _ (λ s, sav_user_id s = u)).
      * unfold get_savings. by destruct (head _).
      * intros r _. rewrite savings_conflict_false. simpl.
        split; [by intros [? _]|intros Hr; split; [done|congruence]].
  - by rewrite decide_False by (by intros [? _]).
Qed.

Lemma get_post_decide_post float_add db pid d now now' q :
  get_post (decide_post float_add db pid d now now') q
  = if decide (q = pid) then decided d now <$> get_post db q
    else get_post db q.
Proof.
  assert (get_post (decide_post float_add db pid d now now') q
          = head (filter (λ p, post_id p = q)
              ((λ p, if decide (post_id p = pid) then decided d now p else p)
                 <$> posts db))) as ->.
  { rewrite decide_post_effect. cbn zeta.
    destruct (get_post db pid); [case_decide|]; done. }
  apply head_posts_decided.
Qed.

(** X5.  Skipping a post makes the total of its owner the sum of the
    total before and the price of the post, added as floats: the sum is
    [float_add] of the two, rounded as Python rounds it, and not always
    the exact sum. *)
Theorem decide_post_skipped_adds_price (float_add : Q → Q → Q)
    (db : database) (pid now now' : string) (p : posts_row) :
  get_post db pid = Some p →
  get_savings (decide_post float_add db pid "skipped" now now')
    (post_user_id p)
  = float_add (get_savings db (post_user_id p)) (post_price p).
Proof.
  intros Hp. rewrite get_savings_decide_post, Hp. by rewrite decide_True.
Qed.

(** The witness: the post of the example, of price 10, with 5 saved
    before; the sum of these two floats is exact, so that [Qplus] stands
    for it. *)
Lemma decide_post_skipped_adds_price_witness :
  get_savings (decide_post Qplus example_db "p1" "skipped" "t" "t") "u1"
  = (get_savings example_db "u1" + post_price example_post)%Q.
Proof.
  apply (decide_post_skipped_adds_price Qplus example_db "p1" "t" "t"
           example_post).
  reflexivity.
Defined.

(** X6.  [decide_post] changes no other total: with a decision other
    than 'skipped' nobody's, and with 'skipped' only that of the owner of
    the post. *)
Theorem decide_post_keeps_other_totals (float_add : Q → Q → Q)
    (db : database) (pid decision now now' u : string) :
  (decision ≠ "skipped"%string
   ∨ ∀ p, get_post db pid = Some p → post_user_id p ≠ u) →
  get_savings (decide_post float_add db pid decision now now') u
  = get_savings db u.
Proof.
  intros Hfree. rewrite get_savings_decide_post.
  destruct (get_post db pid) as [p|]; [|done].
  rewrite decide_False; [done|]. intros [-> <-].
  destruct Hfree as [?|Hne]; [done|]. by apply (Hne p).
Qed.

(** The witness: the total of the voter when the post of the example is
    skipped. *)
Lemma decide_post_keeps_other_totals_witness :
  get_savings (decide_post Qplus example_db "p1" "skipped" "t" "t") "u2"
  = get_savings example_db "u2".
Proof.
  apply (decide_post_keeps_other_totals Qplus example_db "p1" "skipped"
           "t" "t").
  right. intros p [= <-]. discriminate.
Defined.

(** X7.  [decide_post] on the identifier of no post changes nothing. *)
Theorem decide_post_unknown (float_add : Q → Q → Q) (db : database)
    (pid decision now now' : string) :
  get_post db pid = None →
  decide_post float_add db pid decision now now' = db.
Proof.
  intros Hnone. rewrite decide_post_effect, Hnone. cbn zeta.
  replace (_ <$> posts db) with (posts db); [apply with_posts_same|].
  rewrite <- (list_fmap_id (posts db)) at 1.
  apply list_fmap_ext. intros i p Hp. rewrite decide_False; [done|].
  intros Hid. apply (proj1 (head_filter_None _ _) Hnone p); [|done].
  by eapply list_elem_of_lookup_2.
Qed.

(** The witness: an identifier that the example does not hold. *)
Lemma decide_post_unknown_witness :
  decide_post Qplus example_db "p9" "skipped" "t" "t" = example_db.
Proof. apply decide_post_unknown. reflexivity. Defined.

(** X8.  [decide_post] looks at no earlier decision: skipping the same
    post a second time adds its price a second time, each time as a sum
    of floats. *)
Theorem decide_post_skipped_twice (float_add : Q → Q → Q) (db : database)
    (pid now1 now1' now2 now2' : string) (p : posts_row) :
  get_post db pid = Some p →
  get_savings
    (decide_post float_add (decide_post float_add db pid "skipped" now1 now1')
       pid "skipped" now2 now2') (post_user_id p)
  = float_add (float_add (get_savings db (post_user_id p)) (post_price p))
      (post_price p).
Proof.
  intros Hp. rewrite get_savings_decide_post, get_post_decide_post.
  rewrite decide_True, Hp by done. cbn [fmap option_fmap option_map decided].
  cbn [post_user_id post_price]. rewrite decide_True by done.
  by rewrite get_savings_decide_post, Hp, decide_True.
Qed.

(** The witness: the post of the example, skipped twice; the sums 5 + 10
    and 15 + 10 of floats are exact, so that [Qplus] stands for them. *)
Lemma decide_post_skipped_twice_witness :
  get_savings
    (decide_post Qplus (decide_post Qplus example_db "p1" "skipped" "t" "t")
       "p1" "skipped" "t" "t") "u1"
  = (get_savings example_db "u1" + post_price example_post
     + post_price example_post)%Q.
Proof.
  apply (decide_post_skipped_twice Qplus example_db "p1" "t" "t" "t" "t"
           example_post).
  reflexivity.
Defined.

(** ** Posts *)

Lemma posts_conflict_iff (r r' : posts_row) :
  posts_conflict r r' = true ↔ post_id r' = post_id r.
Proof. unfold posts_conflict. rewrite bool_decide_eq_true. naive_solver. Qed.

Lemma notifications_conflict_iff (r r' : notifications_row) :
  notifications_conflict r r' = true ↔ ntf_id r' = ntf_id r.
Proof.
  unfold notifications_conflict. rewrite bool_decide_eq_true. naive_solver.
Qed.

(** The outcome of a plain INSERT. *)
Lemma sql_insert_cases {R} (conflict : R → R → bool) row (t : list R) :
  (sql_insert conflict row t = IntegrityError
   ∧ ∃ r, r ∈ t ∧ conflict row r = true) ∨
  (sql_insert conflict row t = Inserted (t ++ [row])
   ∧ ∀ r, r ∈ t → conflict row r = false).
Proof.
  unfold sql_insert. destruct (existsb _ t) eqn:Hex.
  - left. split; [done|]. by apply existsb_elem.
  - right. split; [done|]. by apply existsb_none.
Qed.

(** What [create_post] does when it returns. *)
Lemma create_post_inv db pid nid group_id user_id item_name item_link price
    reason image_path deadline_utc now now' pid' db' :
  create_post db pid nid group_id user_id item_name item_link price reason
    image_path deadline_utc now now' = Some (pid', db') →
  pid' = pid ∧
  (∀ p, p ∈ posts db → post_id p ≠ pid) ∧
  (∀ n, n ∈ notifications db → ntf_id n ≠ nid) ∧
  db' = with_notifications
          (with_posts db
             (posts db ++
                [mk_post pid group_id user_id (strip item_name)
                   (strip item_link) price (strip reason) image_path
                   deadline_utc "pending" None None now]))
          (notifications db ++
             [mk_notification nid group_id pid "new_post" now']).
Proof.
  unfold create_post.
  destruct (sql_insert_cases posts_conflict
              (mk_post pid group_id user_id (strip item_name)
                 (strip item_link) price (strip reason) image_path
                 deadline_utc "pending" None None now) (posts db))
    as [[-> _]|[-> Hp]]; [done|].
  destruct (sql_insert_cases notifications_conflict
              (mk_notification nid group_id pid "new_post" now')
              (notifications db))
    as [[-> _]|[-> Hn]]; [done|].
  intros [= <- <-]. split_and!; [done| | |done].
  - intros p Hin Hid. apply Hp in Hin.
    apply not_true_iff_false in Hin. by apply Hin, posts_conflict_iff.
  - intros n Hin Hid. apply Hn in Hin.
    apply not_true_iff_false in Hin. by apply Hin, notifications_conflict_iff.
Qed.

(** X9.  [create_post] fails exactly when a post already has the
    identifier of the post, or a notification that of the notification;
    otherwise it returns the identifier of the post, which [get_post]
    then reads as a pending post without a decision, its name, link and
    reason stripped, and the posts that were there read as before. *)
Theorem create_post_stores (db : database) (pid nid group_id user_id : string)
    (item_name item_link : string) (price : Q) (reason : string)
    (image_path : option string) (deadline_utc now now' : string) :
  let result := create_post db pid nid group_id user_id item_name item_link
                  price reason image_path deadline_utc now now' in
  (result = None ↔
     (∃ p, p ∈ posts db ∧ post_id p = pid) ∨
     (∃ n, n ∈ notifications db ∧ ntf_id n = nid)) ∧
  (∀ pid' db', result = Some (pid', db') →
     pid' = pid ∧
     get_post db' pid
     = Some (mk_post pid group_id user_id (strip item_name)
               (strip item_link) price (strip reason) image_path
               deadline_utc "pending" None None now) ∧
     ∀ q, q ≠ pid → get_post db' q = get_post db q).
Proof.
  intros result. subst result. split.
  - unfold create_post.
    destruct (sql_insert_cases posts_conflict
                (mk_post pid group_id user_id (strip item_name)
                   (strip item_link) price (strip reason) image_path
                   deadline_utc "pending" None None now) (posts db))
      as [[-> (p & Hp & Hc)]|[-> Hp]].
    { split; [|done]. intros _. left. exists p.
      by apply posts_conflict_iff in Hc. }
    destruct (sql_insert_cases notifications_conflict
                (mk_notification nid group_id pid "new_post" now')
                (notifications db))
      as [[-> (n & Hn & Hc)]|[-> Hn]].
    { split; [|done]. intros _. right. exists n.
      by apply notifications_conflict_iff in Hc. }
    split; [done|]. intros [(p & Hin & Hid)|(n & Hin & Hid)].
    + apply Hp in Hin. apply not_true_iff_false in Hin.
      destruct Hin. by apply posts_conflict_iff.
    + apply Hn in Hin. apply not_true_iff_false in Hin.
      destruct Hin. by apply notifications_conflict_iff.
  - intros pid' db' (-> & Hfresh & _ & ->)%create_post_inv.
    split; [done|]. unfold get_post. cbn [posts with_notifications with_posts].
    split.
    + rewrite head_filter_snoc, decide_True by done.
      by rewrite (proj2 (head_filter_None _ _) Hfresh).
    + intros q Hq. rewrite head_filter_snoc. destruct (head _); [done|].
      by rewrite decide_False.
Qed.

(** What [delete_post] does. *)
Lemma delete_post_cases db pid user_id :
  (∃ p, get_post db pid = Some p ∧ post_user_id p = user_id
        ∧ post_status p = "pending"%string
        ∧ delete_post db pid user_id
          = (true,
             with_posts
               (with_notifications
                  (with_votes db
                     (filter (λ v, vote_post_id v ≠ pid) (votes db)))
                  (filter (λ n, ntf_post_id n ≠ pid) (notifications db)))
               (filter (λ p, post_id p ≠ pid) (posts db)))) ∨
  ((∀ p, get_post db pid = Some p →
      ¬ (post_user_id p = user_id ∧ post_status p = "pending"%string))
   ∧ delete_post db pid user_id = (false, db)).
Proof.
  unfold delete_post, get_post.
  destruct (head _) as [p|]; [|by right].
  destruct (decide (post_user_id p ≠ user_id)) as [Hu|Hu].
  { right. split; [|done]. intros ? [= <-] [? _]. done. }
  destruct (decide (post_status p ≠ "pending"%string)) as [Hs|Hs].
  { right. split; [|done]. intros ? [= <-] [_ ?]. done. }
  apply dec_stable in Hu, Hs. left. by exists p.
Qed.

(** X10.  [delete_post] returns [True] exactly when the post exists, is
    the user's own and is pending; when it returns [False] it has changed
    nothing. *)
Theorem delete_post_refuses (db : database) (pid user_id : string) :
  ((delete_post db pid user_id).1 = true ↔
     ∃ p, get_post db pid = Some p ∧ post_user_id p = user_id
          ∧ post_status p = "pending"%string) ∧
  ((delete_post db pid user_id).1 = false →
     (delete_post db pid user_id).2 = db).
Proof.
  destruct (delete_post_cases db pid user_id)
    as [(p & Hp & Hu & Hs & ->)|[Hno ->]].
  - split; [|done]. split; [eauto|done].
  - split; [|done]. split; [done|].
    intros (p & Hp & Hu & Hs). by destruct (Hno p).
Qed.

(** X11.  When [delete_post] returns [True], the post is gone together
    with the votes and the notifications that refer to it; every other
    post, vote and notification is kept, and so are the users, the
    groups, the memberships and the savings. *)
Theorem delete_post_removes (db db' : database) (pid user_id : string) :
  delete_post db pid user_id = (true, db') →
  get_post db' pid = None ∧
  (∀ p, p ∈ posts db' ↔ p ∈ posts db ∧ post_id p ≠ pid) ∧
  (∀ v, v ∈ votes db' ↔ v ∈ votes db ∧ vote_post_id v ≠ pid) ∧
  (∀ n, n ∈ notifications db' ↔ n ∈ notifications db ∧ ntf_post_id n ≠ pid) ∧
  users db' = users db ∧ groups db' = groups db ∧
  memberships db' = memberships db ∧ savings db' = savings db.
Proof.
  destruct (delete_post_cases db pid user_id)
    as [(p & Hp & Hu & Hs & ->)|[Hno ->]]; [|done].
  intros [= <-]. cbn [posts votes notifications users groups memberships
    savings with_posts with_notifications with_votes].
  split_and!; try done.
  - apply head_filter_None. intros p' Hp' Hid.
    by apply list_elem_of_filter in Hp' as [Hne _].
  - intros p'. rewrite list_elem_of_filter. tauto.
  - intros v. rewrite list_elem_of_filter. tauto.
  - intros n. rewrite list_elem_of_filter. tauto.
Qed.

(** The witness: the author deletes the post of the example. *)
Lemma delete_post_removes_witness :
  get_post (delete_post example_db "p1" "u1").2 "p1" = None ∧
  votes (delete_post example_db "p1" "u1").2 = [] ∧
  users (delete_post example_db "p1" "u1").2 = users example_db.
Proof.
  destruct (delete_post_removes example_db
              (delete_post example_db "p1" "u1").2 "p1" "u1" eq_refl)
    as (Hpost & _ & _ & _ & Husers & _).
  split_and!; [exact Hpost|reflexivity|exact Husers].
Defined.

(** X12.  A post that has just been created can be deleted by its
    author, and this restores the tables as they were before the post,
    when no vote and no notification of before refers to the new
    identifier. *)
Theorem create_post_then_delete_post (db db' : database)
    (pid nid group_id user_id item_name item_link : string) (price : Q)
    (reason : string) (image_path : option string)
    (deadline_utc now now' pid' : string) :
  create_post db pid nid group_id user_id item_name item_link price reason
    image_path deadline_utc now now' = Some (pid', db') →
  (∀ v, v ∈ votes db → vote_post_id v ≠ pid) →
  (∀ n, n ∈ notifications db → ntf_post_id n ≠ pid) →
  delete_post db' pid' user_id = (true, db).
Proof.
  intros (-> & Hfresh & _ & ->)%create_post_inv Hv Hn.
  unfold delete_post.
  cbn [posts votes notifications with_posts with_notifications with_votes].
  rewrite head_filter_snoc, decide_True by done.
  rewrite (proj2 (head_filter_None _ _) Hfresh).
  cbn [post_user_id post_status].
  rewrite decide_False by (by intros []).
  rewrite decide_False by (by intros []).
  rewrite !filter_app, (filter_all _ (votes db)) by done.
  rewrite (filter_all _ (notifications db)) by done.
  rewrite (filter_all _ (posts db)) by done.
  rewrite !filter_cons_False by (by intros []).
  rewrite !app_nil_r. by destruct db.
Qed.

(** The witness: a second post in the example, deleted again. *)
Lemma create_post_then_delete_post_witness :
  ∃ db', create_post example_db "p2" "n2" "g1" "u2" " Kettle " "" 30 ""
           None "d" "t" "t" = Some ("p2"%string, db') ∧
         delete_post db' "p2" "u2" = (true, example_db).
Proof.
  eexists. split; [reflexivity|].
  apply (create_post_then_delete_post example_db _ "p2" "n2" "g1" "u2"
           " Kettle " "" 30 "" None "d" "t" "t" "p2" eq_refl).
  - intros v ->%list_elem_of_singleton. discriminate.
  - intros n ->%list_elem_of_singleton. discriminate.
Defined.

(** ** The matcher on the table of posts *)

Lemma past_items_of_item_names db user_id :
  past_items_of (item_names db user_id) = item_names db user_id.
Proof.
  unfold past_items_of, item_names. rewrite <- list_fmap_compose.
  apply list_fmap_ext. intros i p _. simpl. by destruct (post_item_name p).
Qed.

Lemma elem_of_item_names db user_id o :
  PStr o ∈ item_names db user_id ↔
  ∃ p, p ∈ posts db ∧ post_user_id p = user_id ∧ post_item_name p = o.
Proof.
  unfold item_names. rewrite list_elem_of_fmap. split.
  - intros (p & [= ->] & [Hu Hp]%list_elem_of_filter). eauto.
  - intros (p & Hp & Hu & <-). exists p. split; [done|].
    by apply list_elem_of_filter.
Qed.



(** X14.  A match names the item of a post of this user, and that item
    clears the threshold. *)
Theorem match_names_own_post (db : database) (user_id item_name : string)
    (threshold : Q) (orig : pyval) :
  check_purchase_history_of db user_id item_name threshold
  = Ok (Match orig) →
  ∃ p, p ∈ posts db ∧ post_user_id p = user_id
       ∧ orig = PStr (post_item_name p)
       ∧ qualifies item_name threshold orig.
Proof.
  intros [Hin Hq]%match_inv. rewrite past_items_of_item_names in Hin.
  destruct Hq as (s & r & -> & Hq).
  apply elem_of_item_names in Hin as (p & Hp & Hu & <-).
  exists p. split_and!; [done..|]. by exists (post_item_name p), r.
Qed.

(** The witness: the name of the post of the example in lower case. *)
Lemma match_names_own_post_witness :
  ∃ p, p ∈ posts example_db ∧ post_user_id p = "u1"%string
       ∧ PStr "Desk Lamp" = PStr (post_item_name p)
       ∧ qualifies "desk lamp" (6 # 10) (PStr "Desk Lamp").
Proof.
  apply (match_names_own_post example_db "u1" "desk lamp" (6 # 10)).
  vm_compute. reflexivity.
Defined.





(** ** Votes *)

Lemma votes_conflict_iff (r r' : votes_row) :
  votes_conflict r r' = true ↔
  vote_id r' = vote_id r
  ∨ (vote_post_id r' = vote_post_id r ∧ vote_user_id r' = vote_user_id r).
Proof.
  unfold votes_conflict.
  rewrite orb_true_iff, andb_true_iff, !bool_decide_eq_true.
  intuition congruence.
Qed.

(** The two ways of [cast_vote]: the INSERT, or after a conflict the
    UPDATE. *)
Lemma cast_vote_cases db vid pid user_id vote comment now now' :
  ((∀ v, v ∈ votes db →
      vote_id v ≠ vid ∧ ¬ (vote_post_id v = pid ∧ vote_user_id v = user_id))
   ∧ cast_vote db vid pid user_id vote comment now now'
     = with_votes db
         (votes db ++ [mk_vote vid pid user_id vote (strip comment) now])) ∨
  ((∃ v, v ∈ votes db ∧
      (vote_id v = vid ∨ (vote_post_id v = pid ∧ vote_user_id v = user_id)))
   ∧ cast_vote db vid pid user_id vote comment now now'
     = with_votes db
         ((λ v, if decide (vote_post_id v = pid ∧ vote_user_id v = user_id)
                then revoted vote comment now' v else v) <$> votes db)).
Proof.
  unfold cast_vote.
  destruct (sql_insert_cases votes_conflict
              (mk_vote vid pid user_id vote (strip comment) now) (votes db))
    as [[-> (v & Hv & Hc)]|[-> Hno]].
  - right. split; [|done]. exists v. split; [done|].
    by apply votes_conflict_iff in Hc.
  - left. split; [|done]. intros v Hv. apply Hno in Hv.
    apply not_true_iff_false in Hv. rewrite votes_conflict_iff in Hv.
    simpl in Hv. tauto.
Qed.

(** X17.  [cast_vote] with a fresh identifier records the vote: afterwards
    the table holds a vote of the user on the post, every such vote
    carries the new choice and the stripped comment, and the votes of
    other users or on other posts are the same as before. *)
Theorem cast_vote_last_wins (db : database)
    (vid pid user_id vote comment now now' : string) :
  (∀ v, v ∈ votes db → vote_id v ≠ vid) →
  let db' := cast_vote db vid pid user_id vote comment now now' in
  (∃ v, v ∈ votes db' ∧ vote_post_id v = pid ∧ vote_user_id v = user_id) ∧
  (∀ v, v ∈ votes db' → vote_post_id v = pid → vote_user_id v = user_id →
     vote_vote v = vote ∧ vote_comment v = strip comment) ∧
  (∀ v, ¬ (vote_post_id v = pid ∧ vote_user_id v = user_id) →
     v ∈ votes db' ↔ v ∈ votes db).
Proof.
  intros Hfresh db'. subst db'.
  destruct (cast_vote_cases db vid pid user_id vote comment now now')
    as [[Hno ->]|[(v0 & Hv0 & Hc) ->]]; cbn [votes with_votes].
  - split_and!.
    + eexists. split; [apply elem_of_app; right; left|done].
    + intros v [Hv| ->%list_elem_of_singleton]%elem_of_app Hp Hu; [|done].
      by destruct (Hno v Hv) as [_ []].
    + intros v Hv. rewrite elem_of_app, list_elem_of_singleton. split.
      * intros [?| ->]; [done|]. by destruct Hv.
      * by left.
  - destruct Hc as [Hid|[Hp Hu]]; [by destruct (Hfresh v0)|].
    split_and!.
    + exists (revoted vote comment now' v0). split; [|done].
      apply list_elem_of_fmap. exists v0. split; [|done].
      by rewrite decide_True.
    + intros v (v1 & -> & Hv1)%list_elem_of_fmap.
      case_decide as Hd; [done|]. intros ??. by destruct Hd.
    + intros v Hv. rewrite list_elem_of_fmap. split.
      * intros (v1 & -> & Hv1). case_decide as Hd; [|done].
        by destruct Hv.
      * intros Hin. exists v. split; [|done]. by rewrite decide_False.
Qed.

(** The witness: the voter of the example votes again. *)
Lemma cast_vote_last_wins_witness :
  (∃ v, v ∈ votes (cast_vote example_db "v2" "p1" "u2" "dont_buy" "" "t" "t")
        ∧ vote_post_id v = "p1"%string ∧ vote_user_id v = "u2"%string) ∧
  (∀ v, v ∈ votes (cast_vote example_db "v2" "p1" "u2" "dont_buy" "" "t" "t") →
     vote_post_id v = "p1"%string → vote_user_id v = "u2"%string →
     vote_vote v = "dont_buy"%string ∧ vote_comment v = strip "") ∧
  (∀ v, ¬ (vote_post_id v = "p1"%string ∧ vote_user_id v = "u2"%string) →
     v ∈ votes (cast_vote example_db "v2" "p1" "u2" "dont_buy" "" "t" "t")
     ↔ v ∈ votes example_db).
Proof.
  apply (cast_vote_last_wins example_db "v2" "p1" "u2" "dont_buy" "" "t" "t").
  intros v ->%list_elem_of_singleton. discriminate.
Defined.

(** X18.  [cast_vote] keeps the constraints of the table of votes: no
    two rows with one identifier, and one vote for each user on each
    post. *)
Theorem cast_vote_keeps_unique (db : database)
    (vid pid user_id vote comment now now' : string) :
  votes_unique (votes db) →
  votes_unique (votes (cast_vote db vid pid user_id vote comment now now')).
Proof.
  intros [Hids Hkeys].
  destruct (cast_vote_cases db vid pid user_id vote comment now now')
    as [[Hno ->]|[_ ->]]; cbn [votes with_votes]; unfold votes_unique.
  - rewrite !fmap_app. simpl. split.
    + apply NoDup_app. split_and!; [done| |apply NoDup_singleton].
      intros id (v & -> & Hv)%list_elem_of_fmap Hid%list_elem_of_singleton.
      by destruct (Hno v Hv) as [[] _].
    + apply NoDup_app. split_and!; [done| |apply NoDup_singleton].
      intros k (v & -> & Hv)%list_elem_of_fmap [= Hp Hu]%list_elem_of_singleton.
      by destruct (Hno v Hv) as [_ []].
  - rewrite <- !list_fmap_compose.
    rewrite (list_fmap_ext _ vote_id (votes db)), 
      (list_fmap_ext _ (λ v, (vote_post_id v, vote_user_id v)) (votes db));
      [done|intros i v _; simpl; by case_decide..].
Qed.

(** The witness: the votes of the example. *)
Lemma cast_vote_keeps_unique_witness :
  votes_unique
    (votes (cast_vote example_db "v2" "p1" "u2" "dont_buy" "" "t" "t")).
Proof.
  apply cast_vote_keeps_unique. split; apply NoDup_singleton.
Defined.

Lemma count_loop_cons (x : vote_view) vs (counts : gmap string nat) :
  count_loop (x :: vs) counts
  = count_loop vs
      match counts !! vote_vote x.1 with
      | Some c => <[vote_vote x.1 := c + 1]> counts
      | None => counts
      end.
Proof. done. Qed.

(** The loop of [vote_counts] adds to the count of each key of the
    dictionary the number of the votes with that choice, and adds no
    key. *)
Lemma count_loop_spec (vs : list vote_view) (counts : gmap string nat) k :
  count_loop vs counts !! k
  = (λ c, c + length (filter (λ x : vote_view, vote_vote x.1 = k) vs))
      <$> counts !! k.
Proof.
  revert counts. induction vs as [|x vs IH]; intros counts.
  - simpl. destruct (counts !! k); simpl; [f_equal; lia|done].
  - rewrite count_loop_cons, IH.
    destruct (decide (vote_vote x.1 = k)) as [Hk|Hk].
    + rewrite filter_cons_True by done. rewrite Hk.
      destruct (counts !! k) as [c|] eqn:Hc; [|by rewrite Hc].
      rewrite lookup_insert_eq. simpl. f_equal. lia.
    + rewrite filter_cons_False by done.
      destruct (counts !! vote_vote x.1) as [c|]; [|done].
      by rewrite lookup_insert_ne.
Qed.

(** X19.  [vote_counts] returns the votes of [post_votes] and a
    dictionary with exactly the keys 'buy', 'dont_buy' and 'neutral',
    each with the number of the listed votes with that choice; a vote
    with another choice is listed and counted nowhere. *)
Theorem vote_counts_tally (db : database) (pid k : string) :
  (vote_counts db pid).2 = post_votes db pid ∧
  (vote_counts db pid).1 !! k
  = if decide (k ∈ ["buy"; "dont_buy"; "neutral"]%string)
    then Some (length (filter (λ x : vote_view, vote_vote x.1 = k)
                         (post_votes db pid)))
    else None.
Proof.
  split; [done|]. unfold vote_counts. cbn [fst]. rewrite count_loop_spec.
  destruct (decide (k = "buy"%string)) as [->|Hb].
  { by rewrite lookup_insert_eq. }
  rewrite lookup_insert_ne by done.
  destruct (decide (k = "dont_buy"%string)) as [->|Hd].
  { by rewrite lookup_insert_eq. }
  rewrite lookup_insert_ne by done.
  destruct (decide (k = "neutral"%string)) as [->|Hn].
  { by rewrite lookup_insert_eq. }
  rewrite lookup_insert_ne, lookup_empty by done.
  rewrite decide_False; [done|].
  rewrite !elem_of_cons, elem_of_nil. tauto.
Qed.

Lemma later_total : Total later.
Proof.
  intros x y. unfold later.
  destruct (leb_total (vote_created_at y.1) (vote_created_at x.1)); eauto.
Qed.

Lemma leb_compare s1 s2 :
  String.leb s1 s2 = true ↔ String.compare s1 s2 ≠ Gt.
Proof. unfold String.leb. by destruct (String.compare s1 s2). Qed.

Lemma later_trans : Transitive later.
Proof.
  intros x y z. unfold later. rewrite !leb_compare. intros Hxy Hyz.
  by eapply string_compare_le_trans.
Qed.

(** X20.  [post_votes] lists the votes on the post whose voter is in the
    table of users, each with the name of the voter, and lists them from
    the latest to the earliest: no vote of the list is later than one
    before it. *)
Theorem post_votes_lists (db : database) (pid : string) :
  (∀ x, x ∈ post_votes db pid ↔
     ∃ v u, x = (v, usr_name u) ∧ v ∈ votes db ∧ vote_post_id v = pid ∧
            u ∈ users db ∧ usr_id u = vote_user_id v) ∧
  StronglySorted later (post_votes db pid).
Proof.
  split.
  - intros x. unfold post_votes. rewrite merge_sort_Permutation.
    rewrite list_elem_of_bind. split.
    + intros (v & (u & ->%list_elem_of_singleton & [Hu Hin]%list_elem_of_filter)
              %list_elem_of_bind & [Hp Hv]%list_elem_of_filter).
      by exists v, u.
    + intros (v & u & -> & Hv & Hp & Hu & Hid). exists v. split.
      * apply list_elem_of_bind. exists u. split; [left|].
        by apply list_elem_of_filter.
      * by apply list_elem_of_filter.
  - apply (@StronglySorted_merge_sort _ later _ later_trans later_total).
Qed.

(** ** Accounts *)

Lemma users_conflict_iff (r r' : users_row) :
  users_conflict r r' = true ↔
  usr_id r' = usr_id r ∨ usr_email r' = usr_email r.
Proof.
  unfold users_conflict. rewrite orb_true_iff, !bool_decide_eq_true.
  intuition congruence.
Qed.

(** Two rows of a table with the same value in a column without
    duplicates are the same row. *)
Lemma NoDup_fmap_key {R K} (f : R → K) (t : list R) r r' :
  NoDup (f <$> t) → r ∈ t → r' ∈ t → f r = f r' → r = r'.
Proof.
  induction t as [|r0 t IH]; intros Hnd Hr Hr' Hf.
  { by apply elem_of_nil in Hr. }
  rewrite fmap_cons in Hnd. apply NoDup_cons in Hnd as [Hnotin Hnd].
  apply elem_of_cons in Hr as [->|Hr]; apply elem_of_cons in Hr' as [->|Hr'].
  - done.
  - destruct Hnotin. rewrite Hf. by apply list_elem_of_fmap_2.
  - destruct Hnotin. rewrite <- Hf. by apply list_elem_of_fmap_2.
  - by apply IH.
Qed.

(** The two ways of [create_user]. *)
Lemma create_user_cases sha256_hex db uid email name password now now' :
  ((∃ u, u ∈ users db ∧
      (usr_id u = uid ∨ usr_email u = strip (lower email)))
   ∧ create_user sha256_hex db uid email name password now now'
     = (None, db)) ∨
  ((∀ u, u ∈ users db →
      usr_id u ≠ uid ∧ usr_email u ≠ strip (lower email))
   ∧ create_user sha256_hex db uid email name password now now'
     = (Some uid,
        with_savings
          (with_users db
             (users db ++
                [mk_user uid (strip (lower email)) (strip name)
                   (hash_password sha256_hex password) now]))
          (sql_insert_or_ignore savings_conflict (mk_saving uid 0 now')
             (savings db)))).
Proof.
  unfold create_user.
  destruct (sql_insert_cases users_conflict
              (mk_user uid (strip (lower email)) (strip name)
                 (hash_password sha256_hex password) now) (users db))
    as [[-> (u & Hu & Hc)]|[-> Hno]].
  - left. split; [|done]. exists u. split; [done|].
    by apply users_conflict_iff in Hc.
  - right. split; [|done]. intros u Hu. apply Hno in Hu.
    apply not_true_iff_false in Hu. rewrite users_conflict_iff in Hu.
    simpl in Hu. naive_solver.
Qed.

(** X21.  [create_user] returns [None] exactly when a user already has
    the identifier or the email, lowered and stripped; it has then
    changed nothing. *)
Theorem create_user_duplicate (sha256_hex : string → string) (db : database)
    (uid email name password now now' : string) :
  let result := create_user sha256_hex db uid email name password now now' in
  (result.1 = None ↔
     ∃ u, u ∈ users db ∧
       (usr_id u = uid ∨ usr_email u = strip (lower email))) ∧
  (result.1 = None → result.2 = db).
Proof.
  intros result. subst result.
  destruct (create_user_cases sha256_hex db uid email name password now now')
    as [[Hex ->]|[Hno ->]]; [done|].
  split; [|done]. split; [done|]. intros (u & Hu & Hc).
  destruct (Hno u Hu). by destruct Hc.
Qed.

(** X22.  After [create_user], [auth_user] with an email that is the
    same once lowered and stripped returns the new account for a
    password with the same hash and [None] for any other; [get_user]
    reads the account under its identifier. *)
Theorem create_user_then_auth_user (sha256_hex : string → string)
    (db db' : database) (uid uid' email name password now now' : string)
    (email' password' : string) :
  create_user sha256_hex db uid email name password now now'
  = (Some uid', db') →
  strip (lower email') = strip (lower email) →
  let account := mk_user uid (strip (lower email)) (strip name)
                   (hash_password sha256_hex password) now in
  uid' = uid ∧
  auth_user sha256_hex db' email' password'
  = (if decide (hash_password sha256_hex password'
                = hash_password sha256_hex password)
     then Some account else None) ∧
  get_user db' uid = Some account.
Proof.
  intros Hcreate Hemail account. subst account.
  destruct (create_user_cases sha256_hex db uid email name password now now')
    as [[_ Heq]|[Hno Heq]]; rewrite Heq in Hcreate; [done|].
  injection Hcreate as <- <-. split; [done|].
  unfold auth_user, get_user. cbn [users with_savings with_users].
  rewrite !head_filter_snoc, Hemail. cbn [usr_email usr_id].
  rewrite !decide_True by done.
  rewrite (proj2 (head_filter_None (λ u, usr_email u = _) (users db)))
    by (intros u Hu; by destruct (Hno u Hu)).
  rewrite (proj2 (head_filter_None (λ u, usr_id u = _) (users db)))
    by (intros u Hu; by destruct (Hno u Hu)).
  split; [|by rewrite decide_True]. cbn [usr_password_hash].
  destruct (decide (hash_password sha256_hex password'
                    = hash_password sha256_hex password)) as [Heq'|Hne].
  - by rewrite decide_True.
  - by rewrite decide_False.
Qed.

(** The witness: a third account in the example, with the identity in
    the place of SHA-256. *)
Lemma create_user_then_auth_user_witness :
  ∃ db', create_user (λ s, s) example_db "u3" " Cat@Example.org" " Cat "
           "pw3" "t" "t" = (Some "u3"%string, db') ∧
    auth_user (λ s, s) db' "cat@example.org" "pw3"
    = Some (mk_user "u3" "cat@example.org" "Cat" "pw3spendsense_salt_v1" "t") ∧
    auth_user (λ s, s) db' "cat@example.org" "pw4" = None.
Proof.
  eexists. split; [reflexivity|]. split.
  - by destruct (create_user_then_auth_user (λ s, s) example_db _ "u3" "u3"
                   " Cat@Example.org" " Cat " "pw3" "t" "t"
                   "cat@example.org" "pw3" eq_refl eq_refl)
      as (_ & Hauth & _).
  - by destruct (create_user_then_auth_user (λ s, s) example_db _ "u3" "u3"
                   " Cat@Example.org" " Cat " "pw3" "t" "t"
                   "cat@example.org" "pw4" eq_refl eq_refl)
      as (_ & Hauth & _).
Defined.

(** X23.  On a table of users without two rows of one email,
    [auth_user] returns an account exactly when that account is in the
    table under the email, lowered and stripped, and holds the hash of
    the password. *)
Theorem auth_user_iff (sha256_hex : string → string) (db : database)
    (email password : string) (u : users_row) :
  NoDup (usr_email <$> users db) →
  auth_user sha256_hex db email password = Some u ↔
  u ∈ users db ∧ usr_email u = strip (lower email)
  ∧ usr_password_hash u = hash_password sha256_hex password.
Proof.
  intros Hnd. unfold auth_user.
  destruct (head _) as [row|] eqn:Hhead.
  - apply head_filter_elem in Hhead as [Hemail Hin].
    case_decide as Hpw; split.
    + by intros [= <-].
    + intros (Hu & He & _). f_equal.
      apply (NoDup_fmap_key usr_email (users db)); [done..|congruence].
    + done.
    + intros (Hu & He & Hh). destruct Hpw.
      by rewrite (NoDup_fmap_key usr_email (users db) row u)
        by (done || congruence).
  - split; [done|]. intros (Hu & He & _).
    by destruct (proj1 (head_filter_None _ _) Hhead u).
Qed.

(** The witness: the first account of the example. *)
Lemma auth_user_iff_witness :
  auth_user (λ s, s) example_db " Ann@Example.org" "pw1" = Some example_user ↔
  example_user ∈ users example_db
  ∧ usr_email example_user = strip (lower " Ann@Example.org")
  ∧ usr_password_hash example_user = hash_password (λ s, s) "pw1".
Proof.
  apply auth_user_iff. apply NoDup_cons. split; [|apply NoDup_singleton].
  intros [=]%list_elem_of_singleton.
Defined.


(** ** Groups *)

Lemma groups_conflict_iff (r r' : groups_row) :
  groups_conflict r r' = true ↔
  grp_id r' = grp_id r ∨ grp_invite_code r' = grp_invite_code r.
Proof.
  unfold groups_conflict. rewrite orb_true_iff, !bool_decide_eq_true.
  intuition congruence.
Qed.

Lemma memberships_conflict_iff (r r' : memberships_row) :
  memberships_conflict r r' = true ↔
  mem_user_id r' = mem_user_id r ∧ mem_group_id r' = mem_group_id r.
Proof.
  unfold memberships_conflict. rewrite andb_true_iff, !bool_decide_eq_true.
  intuition congruence.
Qed.

(** The loop of [delete_group] over the posts of the group removes the
    votes and the notifications that refer to one of these posts. *)
Lemma delete_group_loop ps db :
  foldl (λ db p,
           let db := with_votes db
             (filter (λ v, vote_post_id v ≠ post_id p) (votes db)) in
           with_notifications db
             (filter (λ n, ntf_post_id n ≠ post_id p) (notifications db)))
        db ps
  = with_notifications
      (with_votes db
         (filter (λ v, vote_post_id v ∉ post_id <$> ps) (votes db)))
      (filter (λ n, ntf_post_id n ∉ post_id <$> ps) (notifications db)).
Proof.
  revert db. induction ps as [|p ps IH]; intros db.
  - simpl. rewrite !filter_all;
      [by destruct db|intros ? _; apply not_elem_of_nil..].
  - cbn [foldl]. rewrite IH. destruct db as [us gs ms ps' vs ns ss].
    unfold with_notifications, with_votes.
    cbn [users groups memberships posts votes notifications savings].
    f_equal.
    + rewrite list_filter_filter. apply filter_iff.
      intros v _. rewrite fmap_cons, not_elem_of_cons. tauto.
    + rewrite list_filter_filter. apply filter_iff.
      intros n _. rewrite fmap_cons, not_elem_of_cons. tauto.
Qed.

(** What [delete_group] does. *)
Lemma delete_group_cases db gid user_id :
  (∃ g, get_group db gid = Some g ∧ grp_owner_id g = user_id
        ∧ delete_group db gid user_id
          = (true,
             mk_database (users db)
               (filter (λ g, grp_id g ≠ gid) (groups db))
               (filter (λ m, mem_group_id m ≠ gid) (memberships db))
               (filter (λ p, post_group_id p ≠ gid) (posts db))
               (filter (λ v, vote_post_id v ∉
                          post_id <$> filter (λ p, post_group_id p = gid)
                                        (posts db)) (votes db))
               (filter (λ n, ntf_post_id n ∉
                          post_id <$> filter (λ p, post_group_id p = gid)
                                        (posts db)) (notifications db))
               (savings db))) ∨
  ((∀ g, get_group db gid = Some g → grp_owner_id g ≠ user_id)
   ∧ delete_group db gid user_id = (false, db)).
Proof.
  unfold delete_group, get_group.
  destruct (head _) as [g|]; [|by right].
  destruct (decide (grp_owner_id g ≠ user_id)) as [Hu|Hu].
  { right. split; [|done]. by intros ? [= <-]. }
  apply dec_stable in Hu. left. exists g. split_and!; [done..|].
  by rewrite delete_group_loop.
Qed.

(** X24.  [delete_group] returns [True] exactly when the group exists and
    the user owns it; when it returns [False] it has changed nothing. *)
Theorem delete_group_refuses (db : database) (gid user_id : string) :
  ((delete_group db gid user_id).1 = true ↔
     ∃ g, get_group db gid = Some g ∧ grp_owner_id g = user_id) ∧
  ((delete_group db gid user_id).1 = false →
     (delete_group db gid user_id).2 = db).
Proof.
  destruct (delete_group_cases db gid user_id)
    as [(g & Hg & Hu & ->)|[Hno ->]].
  - split; [|done]. split; [eauto|done].
  - split; [|done]. split; [done|].
    intros (g & Hg & Hu). by destruct (Hno g).
Qed.

(** X25.  When [delete_group] returns [True], the group is gone with its
    memberships and its posts, and with the votes and the notifications
    that refer to one of its posts; every other row of these tables is
    kept, and so are the users and the savings. *)
Theorem delete_group_cascade (db db' : database) (gid user_id : string) :
  delete_group db gid user_id = (true, db') →
  get_group db' gid = None ∧
  (∀ g, g ∈ groups db' ↔ g ∈ groups db ∧ grp_id g ≠ gid) ∧
  (∀ m, m ∈ memberships db' ↔ m ∈ memberships db ∧ mem_group_id m ≠ gid) ∧
  (∀ p, p ∈ posts db' ↔ p ∈ posts db ∧ post_group_id p ≠ gid) ∧
  (∀ v, v ∈ votes db' ↔
     v ∈ votes db ∧
     ∀ p, p ∈ posts db → post_group_id p = gid → vote_post_id v ≠ post_id p) ∧
  (∀ n, n ∈ notifications db' ↔
     n ∈ notifications db ∧
     ∀ p, p ∈ posts db → post_group_id p = gid → ntf_post_id n ≠ post_id p) ∧
  users db' = users db ∧ savings db' = savings db.
Proof.
  destruct (delete_group_cases db gid user_id)
    as [(g & Hg & Hu & ->)|[Hno ->]]; [|done].
  intros [= <-].
  cbn [posts votes notifications users groups memberships savings].
  assert (∀ id, id ∉ post_id <$> filter (λ p, post_group_id p = gid) (posts db)
            ↔ ∀ p, p ∈ posts db → post_group_id p = gid → id ≠ post_id p)
    as Hids.
  { intros id. rewrite list_elem_of_fmap. split.
    - intros Hno p Hp Hg' ->. apply Hno. exists p. split; [done|].
      by apply list_elem_of_filter.
    - intros Hno (p & -> & [Hg' Hp]%list_elem_of_filter). by apply (Hno p). }
  split_and!; try done.
  - apply head_filter_None. intros g' Hg' Hid.
    by apply list_elem_of_filter in Hg' as [Hne _].
  - intros g'. rewrite list_elem_of_filter. tauto.
  - intros m. rewrite list_elem_of_filter. tauto.
  - intros p. rewrite list_elem_of_filter. tauto.
  - intros v. rewrite list_elem_of_filter, Hids. tauto.
  - intros n. rewrite list_elem_of_filter, Hids. tauto.
Qed.

(** The witness: the owner deletes the group of the example. *)
Lemma delete_group_cascade_witness :
  get_group (delete_group example_db "g1" "u1").2 "g1" = None ∧
  users (delete_group example_db "g1" "u1").2 = users example_db.
Proof.
  destruct (delete_group_cascade example_db
              (delete_group example_db "g1" "u1").2 "g1" "u1" eq_refl)
    as (Hgroup & _ & _ & _ & _ & _ & Husers & _).
  split; [exact Hgroup|exact Husers].
Defined.

(** ** The data of a user *)

(** The loop of [clear_user_data] over the groups that the user owns. *)
Lemma delete_groups_frame gids db user_id :
  let db' := foldl (λ db gid, (delete_group db gid user_id).2) db gids in
  users db' = users db ∧ savings db' = savings db.
Proof.
  revert db. induction gids as [|gid gids IH]; intros db; [done|].
  cbn [foldl]. cbn zeta in *.
  destruct (IH (delete_group db gid user_id).2) as [-> ->].
  by destruct (delete_group_cases db gid user_id)
    as [(g & _ & _ & ->)|[_ ->]].
Qed.

Lemma delete_groups_groups gids db user_id :
  (∀ g, g ∈ groups db → grp_id g ∈ gids → grp_owner_id g = user_id) →
  groups (foldl (λ db gid, (delete_group db gid user_id).2) db gids)
  = filter (λ g, grp_id g ∉ gids) (groups db).
Proof.
  revert db. induction gids as [|gid gids IH]; intros db Hown.
  { simpl. rewrite filter_all; [done|]. intros ? _. apply not_elem_of_nil. }
  cbn [foldl].
  assert (groups (delete_group db gid user_id).2
          = filter (λ g, grp_id g ≠ gid) (groups db)) as Hstep.
  { destruct (delete_group_cases db gid user_id)
      as [(g & _ & _ & ->)|[Hno ->]]; [done|].
    cbn [snd]. rewrite filter_all; [done|].
    intros g Hg Hid.
    destruct (get_group db gid) as [g0|] eqn:Hg0.
    - destruct (Hno g0 eq_refl).
      apply head_filter_elem in Hg0 as [Hid0 Hin0].
      apply Hown; [done|]. rewrite Hid0. left.
    - by destruct (proj1 (head_filter_None _ _) Hg0 g). }
  rewrite IH, Hstep.
  - rewrite list_filter_filter. apply filter_iff.
    intros g _. rewrite not_elem_of_cons. tauto.
  - rewrite Hstep. intros g [_ Hg]%list_elem_of_filter Hin.
    apply Hown; [done|]. by right.
Qed.

(** X26.  After [clear_user_data] no user, row of savings, membership,
    post or vote carries the identifier of the user, and the other users
    and their rows of savings are all kept. *)
Theorem clear_user_data_removes (db : database) (user_id : string) :
  let db' := clear_user_data db user_id in
  (∀ u, u ∈ users db' ↔ u ∈ users db ∧ usr_id u ≠ user_id) ∧
  (∀ s, s ∈ savings db' ↔ s ∈ savings db ∧ sav_user_id s ≠ user_id) ∧
  (∀ m, m ∈ memberships db' → mem_user_id m ≠ user_id) ∧
  (∀ p, p ∈ posts db' → post_user_id p ≠ user_id) ∧
  (∀ v, v ∈ votes db' → vote_user_id v ≠ user_id).
Proof.
  intros db'. subst db'. unfold clear_user_data.
  set (gids := grp_id <$> _).
  destruct (delete_groups_frame gids db user_id) as [Hu Hs].
  cbn zeta in Hu, Hs. set (db1 := foldl _ db gids) in *.
  cbn [users groups memberships posts votes savings
       with_users with_savings with_memberships with_posts with_votes].
  rewrite Hu, Hs. split_and!.
  - intros u. rewrite list_elem_of_filter. tauto.
  - intros s. rewrite list_elem_of_filter. tauto.
  - by intros m [? _]%list_elem_of_filter.
  - by intros p [? _]%list_elem_of_filter.
  - by intros v [? _]%list_elem_of_filter.
Qed.

(** X27.  On a table of groups without two rows of one identifier,
    [clear_user_data] removes the groups that the user owns and keeps
    every other group. *)
Theorem clear_user_data_groups (db : database) (user_id : string)
    (g : groups_row) :
  NoDup (grp_id <$> groups db) →
  g ∈ groups (clear_user_data db user_id) ↔
  g ∈ groups db ∧ grp_owner_id g ≠ user_id.
Proof.
  intros Hnd. unfold clear_user_data.
  set (gids := grp_id <$> _).
  cbn [groups with_users with_savings with_memberships with_posts
       with_votes].
  assert (∀ g', g' ∈ groups db →
            grp_id g' ∈ gids ↔ grp_owner_id g' = user_id) as Hgids.
  { intros g' Hg'. unfold gids. rewrite list_elem_of_fmap. split.
    - intros (g0 & Hid & [Hown Hin]%list_elem_of_filter).
      by rewrite (NoDup_fmap_key grp_id (groups db) g' g0).
    - intros Hown. exists g'. split; [done|]. by apply list_elem_of_filter. }
  rewrite delete_groups_groups by (intros g' Hg' Hin; by apply Hgids).
  rewrite list_elem_of_filter. split.
  - intros [Hno Hg]. split; [done|]. intros Hown. by apply Hno, Hgids.
  - intros [Hg Hown]. split; [|done]. intros Hin. by apply Hown, Hgids.
Qed.

(** The witness: the data of the voter of the example, who owns no
    group. *)
Lemma clear_user_data_groups_witness :
  example_group ∈ groups (clear_user_data example_db "u2") ↔
  example_group ∈ groups example_db ∧ grp_owner_id example_group ≠ "u2"%string.
Proof. apply clear_user_data_groups. apply NoDup_singleton. Defined.

(** ** Invite codes *)

(** The ways of [join_group]. *)
Lemma join_group_cases upper db user_id invite_code now :
  let found := head (filter (λ g, grp_invite_code g
                                  = upper (strip invite_code)) (groups db)) in
  (found = None
   ∧ join_group upper db user_id invite_code now
     = ((None, Some "Invalid invite code"%string), db)) ∨
  (∃ g, found = Some g ∧
     (∀ m, m ∈ memberships db →
        ¬ (mem_user_id m = user_id ∧ mem_group_id m = grp_id g)) ∧
     join_group upper db user_id invite_code now
     = ((Some (grp_id g), None),
        with_memberships db
          (memberships db ++ [mk_membership user_id (grp_id g) now]))) ∨
  (∃ g, found = Some g ∧
     (∃ m, m ∈ memberships db ∧
        mem_user_id m = user_id ∧ mem_group_id m = grp_id g) ∧
     join_group upper db user_id invite_code now
     = ((Some (grp_id g), None), db)).
Proof.
  intros found. subst found. unfold join_group.
  destruct (head _) as [g|]; [|by left]. right.
  destruct (sql_insert_cases memberships_conflict
              (mk_membership user_id (grp_id g) now) (memberships db))
    as [[-> (m & Hm & Hc)]|[-> Hno]].
  - right. exists g. split_and!; [done| |done]. exists m. split; [done|].
    by apply memberships_conflict_iff in Hc.
  - left. exists g. split_and!; [done| |done]. intros m Hm Hc.
    apply Hno in Hm. apply not_true_iff_false in Hm.
    by apply Hm, memberships_conflict_iff.
Qed.

(** X28.  [join_group] with a code that, stripped and in upper case, is
    the code of no group reports 'Invalid invite code' and changes
    nothing.  Otherwise it returns the first group with the code and no
    error, the user is a member of that group afterwards, and every
    other membership is as before. *)
Theorem join_group_joins (upper : string → string) (db : database)
    (user_id invite_code now : string) :
  let found := head (filter (λ g, grp_invite_code g
                                  = upper (strip invite_code)) (groups db)) in
  let result := join_group upper db user_id invite_code now in
  match found with
  | None => result = ((None, Some "Invalid invite code"%string), db)
  | Some g =>
      result.1 = (Some (grp_id g), None) ∧
      (∃ m, m ∈ memberships result.2 ∧
         mem_user_id m = user_id ∧ mem_group_id m = grp_id g) ∧
      (∀ m, ¬ (mem_user_id m = user_id ∧ mem_group_id m = grp_id g) →
         m ∈ memberships result.2 ↔ m ∈ memberships db)
  end.
Proof.
  intros found result. subst found result.
  destruct (join_group_cases upper db user_id invite_code now)
    as [[-> ->]|[(g & -> & Hno & ->)|(g & -> & Hex & ->)]]; [done| |].
  - cbn [fst snd memberships with_memberships]. split_and!; [done| |].
    + eexists. split; [apply elem_of_app; right; left|done].
    + intros m Hm. rewrite elem_of_app, list_elem_of_singleton. split.
      * intros [?| ->]; [done|]. by destruct Hm.
      * by left.
  - by split_and!.
Qed.

(** X29.  Joining a second time with the same code gives the same answer
    and changes nothing more. *)
Theorem join_group_idempotent (upper : string → string) (db : database)
    (user_id invite_code now now' : string) :
  join_group upper (join_group upper db user_id invite_code now).2
    user_id invite_code now'
  = join_group upper db user_id invite_code now.
Proof.
  destruct (join_group_cases upper db user_id invite_code now)
    as [[Hf Hr]|[(g & Hf & Hno & Hr)|(g & Hf & Hex & Hr)]]; cbn zeta in *;
    rewrite Hr; cbn [snd]; unfold join_group;
    cbn [groups memberships with_memberships]; rewrite Hf; [done| |].
  - destruct (sql_insert_cases memberships_conflict
                (mk_membership user_id (grp_id g) now')
                (memberships db ++ [mk_membership user_id (grp_id g) now]))
      as [[-> _]|[_ Hfree]]; [done|].
    specialize (Hfree (mk_membership user_id (grp_id g) now)).
    rewrite <- not_true_iff_false, memberships_conflict_iff in Hfree.
    destruct Hfree; [|done]. apply elem_of_app. right. left.
  - destruct (sql_insert_cases memberships_conflict
                (mk_membership user_id (grp_id g) now') (memberships db))
      as [[-> _]|[_ Hfree]]; [done|].
    destruct Hex as (m & Hm & Hu & Hg). specialize (Hfree m Hm).
    rewrite <- not_true_iff_false, memberships_conflict_iff in Hfree.
    by destruct Hfree.
Qed.

(** What [create_group] does when it returns. *)
Lemma create_group_inv db gid owner_id name invite now now' gid' db' :
  create_group db gid owner_id name invite now now' = Some (gid', db') →
  gid' = gid ∧
  (∀ g, g ∈ groups db → grp_id g ≠ gid ∧ grp_invite_code g ≠ invite) ∧
  db' = with_memberships
          (with_groups db
             (groups db ++ [mk_group gid owner_id (strip name) invite now]))
          (sql_insert_or_ignore memberships_conflict
             (mk_membership owner_id gid now') (memberships db)).
Proof.
  unfold create_group.
  destruct (sql_insert_cases groups_conflict
              (mk_group gid owner_id (strip name) invite now) (groups db))
    as [[-> _]|[-> Hno]]; [done|].
  intros [= <- <-]. split_and!; [done| |done].
  intros g Hg. apply Hno in Hg. apply not_true_iff_false in Hg.
  rewrite groups_conflict_iff in Hg. simpl in Hg. naive_solver.
Qed.

(** X30.  [create_group] fails exactly when a group already has the
    identifier or the invite code.  When it returns, the owner is a
    member of the new group, and [join_group] with a code that, stripped
    and in upper case, is the invite code finds this group. *)
Theorem create_group_then_join_group (upper : string → string)
    (db : database) (gid owner_id name invite now now' : string)
    (user_id invite_code now'' : string) :
  let result := create_group db gid owner_id name invite now now' in
  (result = None ↔
     ∃ g, g ∈ groups db ∧ (grp_id g = gid ∨ grp_invite_code g = invite)) ∧
  (∀ gid' db', result = Some (gid', db') →
     gid' = gid ∧
     (∃ m, m ∈ memberships db' ∧
        mem_user_id m = owner_id ∧ mem_group_id m = gid) ∧
     (upper (strip invite_code) = invite →
      (join_group upper db' user_id invite_code now'').1 = (Some gid, None))).
Proof.
  intros result. subst result. split.
  - unfold create_group.
    destruct (sql_insert_cases groups_conflict
                (mk_group gid owner_id (strip name) invite now) (groups db))
      as [[-> (g & Hg & Hc)]|[-> Hno]].
    + split; [|done]. intros _. exists g. split; [done|].
      by apply groups_conflict_iff in Hc.
    + split; [done|]. intros (g & Hg & Hc). apply Hno in Hg.
      apply not_true_iff_false in Hg. destruct Hg.
      by apply groups_conflict_iff.
  - intros gid' db' (-> & Hfresh & ->)%create_group_inv.
    split_and!; [done| |].
    + cbn [memberships with_memberships]. unfold sql_insert_or_ignore.
      destruct (existsb _ _) eqn:Hex.
      * apply existsb_elem in Hex as (m & Hm & Hc).
        apply memberships_conflict_iff in Hc as [Hu Hg]. by exists m.
      * eexists. split; [apply elem_of_app; right; left|done].
    + intros Hcode.
      set (db' := with_memberships _ _).
      assert (head (filter (λ g, grp_invite_code g
                                 = upper (strip invite_code)) (groups db'))
              = Some (mk_group gid owner_id (strip name) invite now))
        as Hfound.
      { unfold db'. cbn [groups with_memberships with_groups].
        rewrite head_filter_snoc, Hcode.
        rewrite (proj2 (head_filter_None _ (groups db)))
          by (intros g Hg; by destruct (Hfresh g Hg)).
        by rewrite decide_True. }
      destruct (join_group_cases upper db' user_id invite_code now'')
        as [[Hf _]|[(g & Hf & _ & ->)|(g & Hf & _ & ->)]]; cbn zeta in Hf;
        rewrite Hfound in Hf; by simplify_eq.
Qed.
